(** * Verification of d2b (src/src/main.rs): DOI / arXiv identifier
    resolution and BibTeX normalisation.

    Strings of the program are modelled as lists of ASCII characters
    ([str]); Rust's Unicode classes ([\s], [\w], [\d], [char::is_whitespace])
    are restricted to their ASCII members.  The compiled [Regex] values of the
    [lazy_static!] block are written as terms of a small regular-expression
    syntax, and [Regex::captures] / [Regex::find] are modelled by a
    backtracking matcher with the leftmost-first preference order that the
    [regex] crate documents for its matches.

    Effects: [Error::with_description(..).exit()] ends the process with a
    message ([Exit]); [unwrap] on [None]/[Err], [assert!] and an [ArrayVec]
    capacity overflow end it with a panic ([Panic]).  The network client and
    the Atom parser are collaborators outside the repository; they are
    parameters ([net], [parse_feed]) of the development. *)

From Stdlib Require Import Bool Arith Lia List Ascii String ZArith.
From Stdlib Require Import Numbers.DecimalString Sorting.Sorted.
Import ListNotations.

Open Scope list_scope.

(** ** Strings *)

Definition str := list ascii.

(** Literal helper: a Rocq string literal as a [str]. *)
Definition s2l (s : string) : str := list_ascii_of_string s.

Definition ascii_eqb (a b : ascii) : bool := Ascii.eqb a b.

Fixpoint str_eqb (a b : str) : bool :=
  match a, b with
  | [], [] => true
  | x :: a', y :: b' => ascii_eqb x y && str_eqb a' b'
  | _, _ => false
  end.

(** [str::starts_with] *)
Fixpoint starts_with (pat s : str) : bool :=
  match pat, s with
  | [], _ => true
  | p :: pat', c :: s' => ascii_eqb p c && starts_with pat' s'
  | _ :: _, [] => false
  end.

(** [str::contains] with a string pattern. *)
Fixpoint contains (pat s : str) : bool :=
  starts_with pat s ||
  match s with
  | [] => false
  | _ :: s' => contains pat s'
  end.

(** [char::is_whitespace] on ASCII: space, \t, \n, \x0B, \x0C, \r.  The
    regex class [\s] has the same ASCII members. *)
Definition is_ws (c : ascii) : bool :=
  let n := nat_of_ascii c in (n =? 32) || ((9 <=? n) && (n <=? 13)).

Definition is_digit (c : ascii) : bool :=
  let n := nat_of_ascii c in (48 <=? n) && (n <=? 57).

Definition is_lower (c : ascii) : bool :=
  let n := nat_of_ascii c in (97 <=? n) && (n <=? 122).

Definition is_upper (c : ascii) : bool :=
  let n := nat_of_ascii c in (65 <=? n) && (n <=? 90).

(** regex [\w] on ASCII: [A-Za-z0-9_] *)
Definition is_word (c : ascii) : bool :=
  is_digit c || is_lower c || is_upper c || ascii_eqb c "_"%char.

(** regex [.] without the [s] flag: any character but a newline. *)
Definition not_newline (c : ascii) : bool := negb (ascii_eqb c "010"%char).

(** [str::trim_start] / [str::trim_end] / [str::trim] *)
Fixpoint trim_start (s : str) : str :=
  match s with
  | c :: s' => if is_ws c then trim_start s' else s
  | [] => []
  end.

Definition trim_end (s : str) : str := rev (trim_start (rev s)).

Definition trim (s : str) : str := trim_end (trim_start s).

(** [str::trim_end_matches("/")] *)
Fixpoint drop_slashes (s : str) : str :=
  match s with
  | c :: s' => if ascii_eqb c "/"%char then drop_slashes s' else s
  | [] => []
  end.

Definition trim_end_slashes (s : str) : str := rev (drop_slashes (rev s)).

(** [str::replace(pat, rep)] for a non-empty [pat]: non-overlapping
    occurrences, left to right.  Every step consumes at least one
    character, so [length s + 1] steps suffice. *)
Fixpoint replace_fuel (fuel : nat) (pat rep s : str) : str :=
  match fuel with
  | O => s
  | S fuel' =>
      match s with
      | [] => []
      | c :: s' =>
          if starts_with pat s
          then rep ++ replace_fuel fuel' pat rep (skipn (List.length pat) s)
          else c :: replace_fuel fuel' pat rep s'
      end
  end.

Definition str_replace (pat rep s : str) : str :=
  replace_fuel (S (List.length s)) pat rep s.

(** [str::split_whitespace] *)
Fixpoint split_ws_aux (cur : str) (s : str) : list str :=
  match s with
  | [] => match cur with [] => [] | _ => [rev cur] end
  | c :: s' =>
      if is_ws c
      then match cur with
           | [] => split_ws_aux [] s'
           | _ => rev cur :: split_ws_aux [] s'
           end
      else split_ws_aux (c :: cur) s'
  end.

Definition split_whitespace (s : str) : list str := split_ws_aux [] s.

(** [[&str]::join(sep)] *)
Fixpoint join (sep : str) (l : list str) : str :=
  match l with
  | [] => []
  | [x] => x
  | x :: l' => x ++ sep ++ join sep l'
  end.

(** [i32::to_string] *)
Definition z_to_str (z : Z) : str :=
  list_ascii_of_string (NilEmpty.string_of_int (Z.to_int z)).

(** ** Program outcomes *)

(** [clap::ErrorKind] values used by the program. *)
Inductive ErrorKind := ValueValidation | InvalidValue | MissingRequiredArgument.

Inductive outcome (A : Type) : Type :=
| Done (a : A)
| Exit (kind : ErrorKind) (msg : str)
| Panic.
Arguments Done {A} a.
Arguments Exit {A} kind msg.
Arguments Panic {A}.

Definition bind {A B} (m : outcome A) (f : A -> outcome B) : outcome B :=
  match m with
  | Done a => f a
  | Exit k s => Exit k s
  | Panic => Panic
  end.

Notation "x <- m ;; f" := (bind m (fun x => f))
  (at level 61, m at next level, right associativity).

Definition invalid_msg : str := s2l "Invalid DOI or arXiv ID!".
Definition please_msg : str := s2l "Please enter a valid DOI or arXiv ID!".

(** ** Regular expressions *)

(** The syntax the program's patterns use.  [RRep p lo hi greedy] is a
    character class repeated between [lo] and [hi] times ([None]: no upper
    bound), greedy or lazy; an optional group [(?:r)?] is [RAlt r REps]. *)
Inductive regex :=
| RClass (p : ascii -> bool)
| RSeq (r1 r2 : regex)
| RAlt (r1 r2 : regex)
| REps
| RRep (p : ascii -> bool) (lo : nat) (hi : option nat) (greedy : bool).

Definition hi_pred (hi : option nat) : option nat := option_map pred hi.

Definition hi_allows (hi : option nat) : bool :=
  match hi with Some 0 => false | _ => true end.

Definition orelse (a b : option str) : option str :=
  match a with Some z => Some z | None => b end.

(** Backtracking over a repeated class.  [k] is the continuation (the rest
    of the pattern); the result is the unconsumed input of the first
    successful path in preference order. *)
Fixpoint rep (p : ascii -> bool) (lo : nat) (hi : option nat) (g : bool)
  (s : str) (k : str -> option str) {struct s} : option str :=
  let more :=
    if hi_allows hi then
      match s with
      | c :: s' => if p c then rep p (pred lo) (hi_pred hi) g s' k else None
      | [] => None
      end
    else None in
  let stop := match lo with O => k s | S _ => None end in
  if g then orelse more stop else orelse stop more.

Fixpoint mt (r : regex) (s : str) (k : str -> option str) : option str :=
  match r with
  | RClass p => match s with c :: s' => if p c then k s' else None | [] => None end
  | RSeq r1 r2 => mt r1 s (fun s' => mt r2 s' k)
  | RAlt r1 r2 => orelse (mt r1 s k) (mt r2 s k)
  | REps => k s
  | RRep p lo hi g => rep p lo hi g s k
  end.

Definition kdone : str -> option str := fun z => Some z.

(** Leftmost-first search: the first start position at which the pattern
    matches, with the preferred match there.  Result: (text before the match,
    matched text, text after the match). *)
Fixpoint find (r : regex) (s : str) : option (str * str * str) :=
  match mt r s kdone with
  | Some rest => Some ([], firstn (List.length s - List.length rest) s, rest)
  | None =>
      match s with
      | [] => None
      | c :: s' =>
          match find r s' with
          | Some (b, m, a) => Some (c :: b, m, a)
          | None => None
          end
      end
  end.

(** [Regex::is_match] *)
Definition is_match (r : regex) (s : str) : bool :=
  match find r s with Some _ => true | None => false end.

(** [re.captures(s).map(|m| m.get(0).unwrap().as_str())] *)
Definition captures0 (r : regex) (s : str) : option str :=
  match find r s with Some (_, m, _) => Some m | None => None end.

(** Regex building blocks. *)
Definition lit (c : ascii) : regex := RClass (ascii_eqb c).
Fixpoint lits (s : str) : regex :=
  match s with [] => REps | c :: s' => RSeq (lit c) (lits s') end.
Definition ci (lower upper : ascii) : regex :=
  RClass (fun c => ascii_eqb c lower || ascii_eqb c upper).
Definition any : regex := RClass not_newline.
Definition opt (r : regex) : regex := RAlt r REps.
Definition plus (p : ascii -> bool) : regex := RRep p 1 None true.

(** [(?:v\d+)?] *)
Definition version_suffix : regex := opt (RSeq (lit "v") (plus is_digit)).

(** [DOI_IDENT_RE = doi(?::|.org)] *)
Definition DOI_IDENT_RE : regex :=
  RSeq (lits (s2l "doi")) (RAlt (lit ":") (RSeq any (lits (s2l "org")))).

(** [[-\._;()/:\w\d]] *)
Definition doi_suffix_char (c : ascii) : bool :=
  existsb (ascii_eqb c) (s2l "-._;()/:") || is_word c || is_digit c.

(** [10.\d{4,9}/[-\._;()/:\w\d]+] *)
Definition DOI_RE_general : regex :=
  RSeq (lits (s2l "10")) (RSeq any (RSeq (RRep is_digit 4 (Some 9) true)
    (RSeq (lit "/") (plus doi_suffix_char)))).

(** [10.1002/[^\s]+] *)
Definition DOI_RE_wiley : regex :=
  RSeq (lits (s2l "10")) (RSeq any (RSeq (lits (s2l "1002/"))
    (plus (fun c => negb (is_ws c))))).

Definition DOI_RE : list regex := [DOI_RE_general; DOI_RE_wiley].

(** [ARXIV_IDENT_RE = (?i)arxiv(?-i)(?::|.org)] *)
Definition ARXIV_IDENT_RE : regex :=
  RSeq (ci "a" "A") (RSeq (ci "r" "R") (RSeq (ci "x" "X") (RSeq (ci "i" "I")
    (RSeq (ci "v" "V") (RAlt (lit ":") (RSeq any (lits (s2l "org")))))))).

(** [\d{4}\.\d{4,5}(?:v\d+)?] *)
Definition ARXIV_RE_modern : regex :=
  RSeq (RRep is_digit 4 (Some 4) true) (RSeq (lit ".")
    (RSeq (RRep is_digit 4 (Some 5) true) version_suffix)).

(** [[a-z]+(?:-[a-z]+)?/\d{7}(?:v\d+)?] *)
Definition ARXIV_RE_legacy : regex :=
  RSeq (plus is_lower) (RSeq (opt (RSeq (lit "-") (plus is_lower)))
    (RSeq (lit "/") (RSeq (RRep is_digit 7 (Some 7) true) version_suffix))).

Definition ARXIV_RE : list regex := [ARXIV_RE_modern; ARXIV_RE_legacy].

(** ** extract_id (main.rs lines 14-25) *)

(** [re_arr.iter().filter_map(|re| re.captures(&pat)).map(|m| m.get(0)..)] *)
Definition matched_texts (re_arr : list regex) (pat : str) : list str :=
  flat_map (fun re => match captures0 re pat with Some m => [m] | None => [] end)
    re_arr.

(** [.collect::<ArrayVec<_, 1>>()]: collecting more elements than the
    capacity panics (arrayvec 0.7 [FromIterator]). *)
Definition collect_arrayvec1 {A} (l : list A) : outcome (list A) :=
  if 1 <? List.length l then Panic else Done l.

Definition extract_id (re_arr : list regex) (pat : str) : outcome str :=
  m <- collect_arrayvec1 (matched_texts re_arr pat) ;;
  match m with
  | [] => Exit ValueValidation invalid_msg
  | x :: _ => Done (trim_end_slashes x)
  end.

(** ** print_doi (main.rs lines 46-50) *)

Definition nl : ascii := "010"%char.

(** Capture group 1 of [DOI_FMT = ,(\s?\w+=\{.+?\})]. *)
Definition DOI_FMT_group1 : regex :=
  RSeq (RRep is_ws 0 (Some 1) true) (RSeq (plus is_word) (RSeq (lit "=")
    (RSeq (lit "{") (RSeq (RRep not_newline 1 None false) (lit "}"))))).

Definition DOI_FMT : regex := RSeq (lit ",") DOI_FMT_group1.

(** The expansion of [",\n  $1"] for a match [m] of [DOI_FMT]: the match
    starts with the one-character [","] outside the group, so group 1 is
    [tl m]. *)
Definition doi_fmt_rep (m : str) : str := [","%char; nl; " "%char; " "%char] ++ tl m.

(** [Regex::replace_all]: every non-overlapping leftmost-first match, left to
    right.  Matches of [DOI_FMT] are non-empty, so [length s + 1] rounds
    suffice. *)
Fixpoint replace_all_fuel (fuel : nat) (re : regex) (rep : str -> str) (s : str) : str :=
  match fuel with
  | O => s
  | S fuel' =>
      match find re s with
      | None => s
      | Some (b, m, a) => b ++ rep m ++ replace_all_fuel fuel' re rep a
      end
  end.

Definition replace_all (re : regex) (rep : str -> str) (s : str) : str :=
  replace_all_fuel (S (List.length s)) re rep s.

Definition print_doi (input : str) : str :=
  str_replace (s2l "}}") ["}"%char; nl; "}"%char]
    (replace_all DOI_FMT doi_fmt_rep (trim input)).

(** ** Atom feed data (the parts of [atom_syndication::Entry] the code reads) *)

Record Extension := mkExtension { ext_value : option str }.

Record Entry := mkEntry {
  authors : list str;            (** [entry.authors()], each [a.name()] *)
  published : option Z;          (** [entry.published()], its [year()] *)
  entry_id : str;                (** [entry.id()] *)
  title : str;                   (** [entry.title.as_str()] *)
  categories : list str;         (** [entry.categories], each [term()] *)
  extensions : list (str * list (str * list Extension))
                                 (** [entry.extensions()]: namespace prefix ->
                                     element name -> elements *)
}.

Record Feed := mkFeed { entries : list Entry }.

(** [BTreeMap::get] on a map with distinct keys. *)
Fixpoint lookup {A} (k : str) (l : list (str * A)) : option A :=
  match l with
  | [] => None
  | (k', v) :: l' => if str_eqb k k' then Some v else lookup k l'
  end.

(** ** Network *)

Inductive IdType := Doi | Arxiv.

Record Request := mkRequest { url : str; accept : option str }.

(** A [reqwest::Response]: its status and the result of
    [text_with_charset("utf-8")]. *)
Record Response := mkResponse { status : Z; text : option str }.

(** The request [request_info] (lines 27-44) sends. *)
Definition request_of (id : str) (idtype : IdType) : Request :=
  match idtype with
  | Doi => mkRequest (s2l "https://doi.org/" ++ id)
             (Some (s2l "text/bibliography; style=bibtex"))
  | Arxiv => mkRequest (s2l "http://export.arxiv.org/api/query?id_list=" ++ id) None
  end.

(** Lines 73-94: the author loop. [n] is [entry.authors().len()], [i] the
    index of the current author. *)
Fixpoint author_loop (n i : nat) (l : list str) (firstauth authors : str)
  : outcome (str * str) :=
  match l with
  | [] => Done (firstauth, authors)
  | a :: l' =>
      let name_vec := split_whitespace a in
      match name_vec with
      | [] => Panic  (* assert!(!name_vec.is_empty()) *)
      | _ :: _ =>
          let nv := List.length name_vec in
          let firstauth' := if i =? 0 then nth (nv - 1) name_vec [] else firstauth in
          let ending := if negb (i =? n - 1) then s2l " and " else [] in
          author_loop n (S i) l' firstauth'
            (authors ++ nth (nv - 1) name_vec [] ++ s2l ", "
               ++ join (s2l " ") (firstn (nv - 1) name_vec) ++ ending)
      end
  end.

(** Line 106: the [format!] of the synthesised record. *)
Definition arxiv_record (key title authors year id class : str) : str :=
  s2l "@article{" ++ key ++ s2l ",title={" ++ title ++ s2l "},author={" ++ authors
  ++ s2l "},year={" ++ year ++ s2l "},eprint={" ++ id
  ++ s2l "},archivePrefix={arXiv},primaryClass={" ++ class ++ s2l "}}".

Section Program.

(** The HTTP client: [None] is a transport error ([reqwest::Error]). *)
Variable net : Request -> option Response.
(** [str::parse::<Feed>]: [None] is a parse error. *)
Variable parse_feed : str -> option Feed.

(** [request_info] (lines 27-44). *)
Definition request_info (id : str) (idtype : IdType) : option Response :=
  net (request_of id idtype).

(** Lines 115-121 of [handle_response]: the checks on the fetched payload. *)
Definition response_text (res : option Response) : outcome str :=
  match res with
  | None => Exit InvalidValue invalid_msg
  | Some r =>
      match text r with
      | None => Panic
      | Some t =>
          if contains (s2l "cannot be found") t then Exit InvalidValue invalid_msg
          else Done t
      end
  end.

(** [handle_response(res, IdType::Doi)]. *)
Definition handle_doi_response (res : option Response) : outcome str :=
  t <- response_text res ;; Done (print_doi t).

(** [print_arxiv] (lines 52-111). *)
Definition print_arxiv (input : Feed) : outcome str :=
  match entries input with
  | [] => Exit InvalidValue invalid_msg
  | entry :: _ =>
      if (match authors entry with [] => true | _ => false end)
         || (match published entry with None => true | Some _ => false end)
         || (List.length (entry_id entry) =? 0)
      then Exit InvalidValue invalid_msg
      else
        match lookup (s2l "arxiv") (extensions entry) with
        | None => Panic  (* assert!(extensions.contains_key("arxiv")) *)
        | Some arxiv_extension =>
            match lookup (s2l "doi") arxiv_extension with
            | Some doi_elems =>
                match nth_error doi_elems 0 with
                | None => Panic
                | Some e =>
                    match ext_value e with
                    | None => Panic
                    | Some doi => handle_doi_response (request_info doi Doi)
                    end
                end
            | None =>
                fa <- author_loop (List.length (authors entry)) 0 (authors entry) [] [] ;;
                let (firstauth, auths) := fa in
                match categories entry with
                | [] => Panic  (* assert!(!categories.is_empty()) *)
                | class :: _ =>
                    match published entry with
                    | None => Panic
                    | Some y =>
                        let year := z_to_str y in
                        let key := firstauth ++ s2l "_" ++ year in
                        let ttl := str_replace [nl; " "%char] [] (title entry) in
                        id <- extract_id ARXIV_RE (entry_id entry) ;;
                        Done (print_doi (arxiv_record key ttl auths year id class))
                    end
                end
            end
        end
  end.

(** [handle_response] (lines 113-126). *)
Definition handle_response (res : option Response) (idtype : IdType) : outcome str :=
  t <- response_text res ;;
  match idtype with
  | Doi => Done (print_doi t)
  | Arxiv =>
      match parse_feed t with
      | None => Panic
      | Some f => print_arxiv f
      end
  end.

(** Lines 154-165 of [get_bibtex]: classification and extraction. *)
Definition classify (pat : str) : outcome (str * IdType) :=
  if is_match DOI_IDENT_RE pat || existsb (fun re => is_match re pat) DOI_RE then
    id <- extract_id DOI_RE pat ;; Done (id, Doi)
  else if is_match ARXIV_IDENT_RE pat || existsb (fun re => is_match re pat) ARXIV_RE then
    id <- extract_id ARXIV_RE pat ;; Done (id, Arxiv)
  else Exit InvalidValue please_msg.

(** [get_bibtex] (lines 152-171). *)
Definition get_bibtex (pat : str) : outcome str :=
  p <- classify pat ;;
  let (id, idtype) := p in
  handle_response (request_info id idtype) idtype.

End Program.

(** ** main (lines 173-207): sort, dedup, one task per pattern *)

(** [Ord for str]: byte-wise lexicographic order. *)
Fixpoint str_leb (a b : str) : bool :=
  match a, b with
  | [], _ => true
  | _ :: _, [] => false
  | x :: a', y :: b' =>
      (nat_of_ascii x <? nat_of_ascii y)
      || ((nat_of_ascii x =? nat_of_ascii y) && str_leb a' b')
  end.

Fixpoint insert_sorted (x : str) (l : list str) : list str :=
  match l with
  | [] => [x]
  | y :: l' => if str_leb x y then x :: l else y :: insert_sorted x l'
  end.

(** [Vec::sort] (the sorted result is unique, so any sorting algorithm gives
    it). *)
Fixpoint sort (l : list str) : list str :=
  match l with
  | [] => []
  | x :: l' => insert_sorted x (sort l')
  end.

(** [Vec::dedup]: removes consecutive repeated elements. *)
Fixpoint dedup (l : list str) : list str :=
  match l with
  | [] => []
  | x :: l' =>
      match l' with
      | y :: _ => if str_eqb x y then dedup l' else x :: dedup l'
      | [] => [x]
      end
  end.

(** The patterns handed to [get_bibtex], one task each. *)
Definition dispatched (inputs : list str) : list str := dedup (sort inputs).

Definition main_tasks (net : Request -> option Response) (parse_feed : str -> option Feed)
  (inputs : list str) : list (outcome str) :=
  map (get_bibtex net parse_feed) (dispatched inputs).

(** ** The synthesised arXiv record as the specification words it *)

(** "split on whitespace into name tokens; the last token is the surname,
    the remaining tokens (joined with spaces) are the given names; render
    as [Surname, Given Names]". *)
Definition render_author (name : str) : str :=
  let toks := split_whitespace name in
  last toks [] ++ s2l ", " ++ join (s2l " ") (removelast toks).

(** "join all rendered authors with [ and ]". *)
Definition authors_field (names : list str) : str :=
  join (s2l " and ") (map render_author names).

(** The first author's surname. *)
Definition first_surname (names : list str) : str :=
  match names with
  | n :: _ => last (split_whitespace n) []
  | [] => []
  end.

(** [@article{<key>,title={<title>},author={<authors>},year={<year>},
    eprint={<eprint>},archivePrefix={arXiv},primaryClass={<class>}}] with
    [key = <first surname>_<year>], the title without "newline + space" and
    [class] the first category. *)
Definition spec_record (e : Entry) (year eprint : str) : str :=
  s2l "@article{" ++ first_surname (authors e) ++ s2l "_" ++ year
  ++ s2l ",title={" ++ str_replace [nl; " "%char] [] (title e)
  ++ s2l "},author={" ++ authors_field (authors e)
  ++ s2l "},year={" ++ year ++ s2l "},eprint={" ++ eprint
  ++ s2l "},archivePrefix={arXiv},primaryClass={" ++ hd [] (categories e) ++ s2l "}}".

(** ** Concrete inputs used by the examples below *)

Definition arxiv_test_inputs : list str :=
  map s2l ["arxiv:2105.11572"; "https://arxiv.org/abs/1912.02599v2"; "2105.11572";
           "https://arxiv.org/abs/math/0506203"; "math/0506203"; "hep-th/9910001";
           "https://arxiv.org/abs/hep-th/9910001v2"]%string.

Definition arxiv_test_ids : list str :=
  map s2l ["2105.11572"; "1912.02599v2"; "2105.11572"; "math/0506203";
           "math/0506203"; "hep-th/9910001"; "hep-th/9910001v2"]%string.

(** A Wiley DOI: matched by both patterns of [DOI_RE]. *)
Definition wiley_doi : str := s2l "10.1002/anie.201915678".

(** A registry that answers every request with one BibTeX entry. *)
Definition bib_payload : str := s2l "@article{Doe_2020, title={On Things}, year={2020}}".
Definition net_ok (_ : Request) : option Response := Some (mkResponse 200 (Some bib_payload)).
Definition no_parse (_ : str) : option Feed := None.

Definition arxiv_ext_doi (doi : str) : list (str * list (str * list Extension)) :=
  [(s2l "arxiv", [(s2l "doi", [mkExtension (Some doi)])])].
Definition arxiv_ext_nodoi : list (str * list (str * list Extension)) :=
  [(s2l "arxiv", [(s2l "comment", [mkExtension (Some (s2l "12 pages"))])])].

(** An entry declaring a DOI but with an empty author list. *)
Definition entry_doi_no_authors : Entry :=
  mkEntry [] (Some 2021%Z) (s2l "http://arxiv.org/abs/2105.11572v1")
    (s2l "A Title") [s2l "cs.LG"] (arxiv_ext_doi (s2l "10.1000/xyz")).

(** A complete entry declaring a DOI. *)
Definition entry_doi : Entry :=
  mkEntry [s2l "Jane Q Doe"; s2l "John Roe"] (Some 2021%Z)
    (s2l "http://arxiv.org/abs/2105.11572v1") (s2l "A Title") [s2l "cs.LG"]
    (arxiv_ext_doi (s2l "10.1000/xyz")).

(** An entry declaring a DOI that has no categories. *)
Definition entry_doi_no_categories : Entry :=
  mkEntry [s2l "Jane Q Doe"; s2l "John Roe"] (Some 2021%Z)
    (s2l "http://arxiv.org/abs/2105.11572v1") (s2l "A Title") []
    (arxiv_ext_doi (s2l "10.1000/xyz")).

(** A complete entry without a DOI. *)
Definition entry_plain : Entry :=
  mkEntry [s2l "Jane Q Doe"; s2l "John Roe"] (Some 2021%Z)
    (s2l "http://arxiv.org/abs/2105.11572v1") (s2l "A Title") [s2l "cs.LG"]
    arxiv_ext_nodoi.

(** The same entry without categories. *)
Definition entry_no_categories : Entry :=
  mkEntry [s2l "Jane Q Doe"; s2l "John Roe"] (Some 2021%Z)
    (s2l "http://arxiv.org/abs/2105.11572v1") (s2l "A Title") []
    arxiv_ext_nodoi.

(** A record whose title is wrapped in double braces. *)
Definition double_brace_bib : str := s2l "@article{k,title={{A}}}".

(** A DOI whose match ends in slashes. *)
Definition doi_double_slash : str := s2l "10.1234//".

(** A DOI whose match ends in a slash that trimming removes. *)
Definition doi_trailing_slash : str := s2l "https://doi.org/10.1000/xyz/".

(** A complete entry without a DOI whose second author name is blank. *)
Definition entry_blank_author : Entry :=
  mkEntry [s2l "Jane Q Doe"; s2l "  "] (Some 2021%Z)
    (s2l "http://arxiv.org/abs/2105.11572v1") (s2l "A Title") [s2l "cs.LG"]
    arxiv_ext_nodoi.

(** A blank author name and no categories. *)
Definition entry_blank_no_categories : Entry :=
  mkEntry [s2l "Jane Q Doe"; s2l "  "] (Some 2021%Z)
    (s2l "http://arxiv.org/abs/2105.11572v1") (s2l "A Title") []
    arxiv_ext_nodoi.

(** A complete entry without an [arxiv] extension namespace. *)
Definition entry_no_arxiv : Entry :=
  mkEntry [s2l "Jane Q Doe"] (Some 2021%Z)
    (s2l "http://arxiv.org/abs/2105.11572v1") (s2l "A Title") [s2l "cs.LG"] [].

(** The marker string of [handle_response]. *)
Definition not_found_marker : str := s2l "cannot be found".

(** * Theorems *)

(** ** Small facts about the string functions *)

Lemma ascii_eqb_true a b : ascii_eqb a b = true <-> a = b.
Proof. unfold ascii_eqb. apply Ascii.eqb_eq. Qed.

Lemma str_eqb_true a b : str_eqb a b = true <-> a = b.
Proof.
  revert b; induction a as [|x a IH]; intros [|y b]; simpl; split; intro H;
    try discriminate; try reflexivity.
  - apply andb_true_iff in H as [H1 H2]. apply ascii_eqb_true in H1.
    apply IH in H2. subst. reflexivity.
  - injection H as -> ->. apply andb_true_iff. split.
    + apply ascii_eqb_true. reflexivity.
    + apply IH. reflexivity.
Qed.

(** ** C3 *)

(** C3: on the seven inputs of the crate's [test_extract_arxiv_id],
    [extract_id(&ARXIV_RE, ..)] returns exactly the expected identifiers. *)
Theorem extract_arxiv_test_set :
  map (extract_id ARXIV_RE) arxiv_test_inputs = map Done arxiv_test_ids.
Proof. vm_compute. reflexivity. Qed.

(** ** C4 *)

(** The two patterns of [DOI_RE] both match a Wiley DOI. *)
Lemma wiley_doi_two_matches :
  matched_texts DOI_RE wiley_doi = [wiley_doi; wiley_doi].
Proof. vm_compute. reflexivity. Qed.

(** C4: when both patterns of a set match, [extract_id] does not return the
    first pattern's match: collecting two matches into [ArrayVec<_, 1>]
    panics. *)
Theorem extract_id_two_matches_panics :
  extract_id DOI_RE wiley_doi = Panic.
Proof. vm_compute. reflexivity. Qed.

(** The Wiley DOI given on the command line ends the task with a panic. *)
Lemma classify_wiley_doi_panics :
  classify wiley_doi = Panic.
Proof. vm_compute. reflexivity. Qed.

(** ** Fetch outcomes: C5 and C10 *)

(** C5 (counterexample): the status of a response is never looked at; a
    404 response whose body lacks the marker is reformatted as a record. *)
Lemma not_found_status_is_processed :
  handle_response net_ok no_parse (Some (mkResponse 404 (Some (s2l "Not Found")))) Doi
  <> Exit InvalidValue invalid_msg.
Proof. vm_compute. discriminate. Qed.

(** C5 (amended): a transport error, or a payload containing
    "cannot be found" (for either kind of identifier), ends the task with
    "Invalid DOI or arXiv ID!"; the result does not depend on the status
    code of a response. *)
Theorem handle_response_not_found net parse_feed idtype :
  handle_response net parse_feed None idtype = Exit InvalidValue invalid_msg /\
  (forall st b, contains not_found_marker b = true ->
     handle_response net parse_feed (Some (mkResponse st (Some b))) idtype
     = Exit InvalidValue invalid_msg) /\
  (forall st st' t,
     handle_response net parse_feed (Some (mkResponse st t)) idtype
     = handle_response net parse_feed (Some (mkResponse st' t)) idtype).
Proof.
  split; [reflexivity|split].
  - intros st b H. unfold handle_response, response_text. cbn [text].
    unfold not_found_marker in H. rewrite H. reflexivity.
  - intros st st' t. reflexivity.
Qed.

Lemma handle_response_not_found_witness :
  contains not_found_marker (s2l "DOI 10.1/x cannot be found") = true /\
  handle_response net_ok no_parse (Some (mkResponse 404 (Some (s2l "DOI 10.1/x cannot be found")))) Doi
  = Exit InvalidValue invalid_msg.
Proof.
  split; [vm_compute; reflexivity|].
  apply (proj1 (proj2 (handle_response_not_found net_ok no_parse Doi))).
  vm_compute. reflexivity.
Defined.

(** C10: an arXiv payload containing "cannot be found" ends the task with
    "Invalid DOI or arXiv ID!" whatever the feed parser would make of it. *)
Theorem arxiv_marker_exits_before_parse net parse_feed st b :
  contains not_found_marker b = true ->
  handle_response net parse_feed (Some (mkResponse st (Some b))) Arxiv
  = Exit InvalidValue invalid_msg.
Proof.
  intro H. unfold handle_response, response_text. cbn [text].
  unfold not_found_marker in H. rewrite H. reflexivity.
Qed.

Lemma arxiv_marker_exits_before_parse_witness :
  contains not_found_marker (s2l "<feed><title>cannot be found</title></feed>") = true /\
  handle_response net_ok (fun _ => Some (mkFeed [entry_plain])) (Some (mkResponse 200
    (Some (s2l "<feed><title>cannot be found</title></feed>")))) Arxiv
  = Exit InvalidValue invalid_msg.
Proof.
  split; [vm_compute; reflexivity|].
  apply arxiv_marker_exits_before_parse. vm_compute. reflexivity.
Defined.

(** ** C1: the DOI redirect of print_arxiv *)

(** C1 (counterexample): an entry that declares a DOI but has no authors
    never reaches the DOI redirect. *)
Lemma doi_entry_without_authors_exits :
  print_arxiv net_ok (mkFeed [entry_doi_no_authors]) = Exit InvalidValue invalid_msg /\
  print_arxiv net_ok (mkFeed [entry_doi_no_authors])
  <> handle_response net_ok no_parse (net_ok (request_of (s2l "10.1000/xyz") Doi)) Doi.
Proof. split; vm_compute; [reflexivity | discriminate]. Qed.

Lemma print_arxiv_validation_exit net f e rest :
  entries f = e :: rest ->
  (authors e = [] \/ published e = None \/ entry_id e = []) ->
  print_arxiv net f = Exit InvalidValue invalid_msg.
Proof.
  intros Hf H. unfold print_arxiv. rewrite Hf.
  destruct H as [H|[H|H]]; rewrite H;
    [reflexivity | destruct (authors e); reflexivity |].
  destruct (authors e); [reflexivity|].
  destruct (published e); reflexivity.
Qed.

Lemma print_arxiv_doi_path net parse_feed f e rest ax d ds doi :
  entries f = e :: rest ->
  authors e <> [] -> published e <> None -> entry_id e <> [] ->
  lookup (s2l "arxiv") (extensions e) = Some ax ->
  lookup (s2l "doi") ax = Some (d :: ds) ->
  ext_value d = Some doi ->
  print_arxiv net f = handle_response net parse_feed (net (request_of doi Doi)) Doi.
Proof.
  intros Hf Ha Hp Hi Hx Hd Hv. unfold print_arxiv. rewrite Hf.
  destruct (authors e) as [|a l]; [congruence|].
  destruct (published e) as [y|]; [|congruence].
  destruct (entry_id e) as [|c s]; [congruence|].
  cbn -[s2l lookup request_info handle_doi_response].
  rewrite Hx, Hd. cbn -[request_info handle_doi_response]. rewrite Hv. reflexivity.
Qed.

(** C1 (amended): if the first entry lacks authors, a published date or an
    id, [print_arxiv] exits with "Invalid DOI or arXiv ID!" whatever its
    extensions declare, so a declared DOI is never consulted; when the
    entry has all three and its arXiv extension declares a DOI,
    [print_arxiv] returns what [handle_response] returns for the DOI
    request: the synthesis path (author loop, categories, title,
    [extract_id]) is not run. *)
Theorem print_arxiv_doi_redirect net parse_feed f e rest :
  entries f = e :: rest ->
  ((authors e = [] \/ published e = None \/ entry_id e = []) ->
   print_arxiv net f = Exit InvalidValue invalid_msg) /\
  (forall ax d ds doi,
   authors e <> [] -> published e <> None -> entry_id e <> [] ->
   lookup (s2l "arxiv") (extensions e) = Some ax ->
   lookup (s2l "doi") ax = Some (d :: ds) ->
   ext_value d = Some doi ->
   print_arxiv net f = handle_response net parse_feed (net (request_of doi Doi)) Doi).
Proof.
  intro Hf. split.
  - apply (print_arxiv_validation_exit net f e rest Hf).
  - intros ax d ds doi. apply (print_arxiv_doi_path net parse_feed f e rest ax d ds doi Hf).
Qed.

Lemma print_arxiv_doi_redirect_witness :
  print_arxiv net_ok (mkFeed [entry_doi_no_authors]) = Exit InvalidValue invalid_msg /\
  print_arxiv net_ok (mkFeed [entry_doi])
  = handle_response net_ok no_parse (net_ok (request_of (s2l "10.1000/xyz") Doi)) Doi.
Proof.
  split.
  - apply (proj1 (print_arxiv_doi_redirect net_ok no_parse (mkFeed [entry_doi_no_authors])
                    entry_doi_no_authors [] eq_refl)).
    left. reflexivity.
  - apply (proj2 (print_arxiv_doi_redirect net_ok no_parse (mkFeed [entry_doi]) entry_doi []
                    eq_refl)
             [(s2l "doi", [mkExtension (Some (s2l "10.1000/xyz"))])]
             (mkExtension (Some (s2l "10.1000/xyz"))) []);
      try reflexivity; discriminate.
Defined.

(** ** The author loop *)

Lemma nth_pred_length_last (l : list str) d :
  l <> [] -> nth (List.length l - 1) l d = last l d.
Proof.
  induction l as [|x l IH]; intro H; [congruence|].
  destruct l as [|y l]; [reflexivity|].
  replace (List.length (x :: y :: l) - 1) with (S (List.length (y :: l) - 1))
    by (simpl; lia).
  change (nth (List.length (y :: l) - 1) (y :: l) d = last (y :: l) d).
  apply IH. discriminate.
Qed.

Lemma firstn_pred_length (l : list str) :
  firstn (List.length l - 1) l = removelast l.
Proof. rewrite removelast_firstn_len, Nat.sub_1_r. reflexivity. Qed.

(** The loop renders the authors as [authors_field] and keeps the first
    author's surname. *)
Lemma authors_field_cons2 a b l :
  authors_field (a :: b :: l) = render_author a ++ s2l " and " ++ authors_field (b :: l).
Proof. reflexivity. Qed.

Lemma author_loop_spec names : forall n i fa acc,
  Forall (fun a => split_whitespace a <> []) names -> names <> [] ->
  i + List.length names = n ->
  author_loop n i names fa acc
  = Done (if i =? 0 then first_surname names else fa, acc ++ authors_field names).
Proof.
  induction names as [|a l IH]; intros n i fa acc Hne Hnil Hn; [congruence|].
  apply Forall_cons_iff in Hne as [Ha Hl].
  cbn [author_loop]. destruct (split_whitespace a) as [|t ts] eqn:Hs; [congruence|].
  cbv zeta.
  rewrite nth_pred_length_last, firstn_pred_length by discriminate.
  destruct l as [|b l].
  - replace (i =? n - 1) with true
      by (symmetry; apply Nat.eqb_eq; simpl in Hn; lia).
    cbn [negb author_loop]. unfold authors_field, render_author, first_surname.
    cbn [map join]. rewrite Hs, !app_nil_r. reflexivity.
  - replace (i =? n - 1) with false
      by (symmetry; apply Nat.eqb_neq; simpl in Hn; lia).
    cbn [negb].
    rewrite (IH n (S i)); [|assumption|discriminate|simpl in Hn |- *; lia].
    cbn [Nat.eqb]. f_equal. f_equal.
    + destruct i; [|reflexivity]. unfold first_surname. rewrite Hs. reflexivity.
    + rewrite authors_field_cons2. unfold render_author. rewrite Hs.
      rewrite <- !app_assoc. reflexivity.
Qed.

Lemma validation_guard_false e :
  authors e <> [] -> published e <> None -> entry_id e <> [] ->
  ((match authors e with [] => true | _ => false end)
   || (match published e with None => true | Some _ => false end)
   || (List.length (entry_id e) =? 0)) = false.
Proof.
  intros Ha Hp Hi. destruct (authors e); [congruence|].
  destruct (published e); [|congruence]. destruct (entry_id e); [congruence|].
  reflexivity.
Qed.

(** ** C2: the synthesised record *)

(** C2: for a first entry with authors (each with at least one name
    token), a published year, an id and a category, whose arXiv extension
    declares no DOI, and whose id yields an eprint under [ARXIV_RE],
    [print_arxiv] returns [print_doi] of the record the specification
    describes. *)
Theorem print_arxiv_synthesis net f e rest y ax eprint :
  entries f = e :: rest ->
  authors e <> [] -> published e = Some y -> entry_id e <> [] ->
  categories e <> [] ->
  lookup (s2l "arxiv") (extensions e) = Some ax ->
  lookup (s2l "doi") ax = None ->
  Forall (fun a => split_whitespace a <> []) (authors e) ->
  extract_id ARXIV_RE (entry_id e) = Done eprint ->
  print_arxiv net f = Done (print_doi (spec_record e (z_to_str y) eprint)).
Proof.
  intros Hf Ha Hy Hi Hc Hx Hd Hn He. unfold print_arxiv. rewrite Hf.
  rewrite validation_guard_false by congruence.
  rewrite Hx, Hd.
  rewrite (author_loop_spec (authors e) _ 0) by (auto || reflexivity).
  cbn [bind Nat.eqb]. unfold spec_record.
  destruct (categories e) as [|class cs]; [congruence|].
  rewrite Hy, He. cbn [bind hd]. unfold arxiv_record.
  rewrite <- !app_assoc. reflexivity.
Qed.

Lemma print_arxiv_synthesis_witness :
  print_arxiv net_ok (mkFeed [entry_plain])
  = Done (print_doi (spec_record entry_plain (s2l "2021") (s2l "2105.11572v1"))).
Proof.
  apply (print_arxiv_synthesis net_ok (mkFeed [entry_plain]) entry_plain [] 2021%Z
           [(s2l "comment", [mkExtension (Some (s2l "12 pages"))])]);
    try reflexivity; try discriminate.
  repeat constructor; vm_compute; discriminate.
Defined.

(** ** C6: missing required fields *)

Lemma author_loop_not_exit n i l fa acc k msg : author_loop n i l fa acc <> Exit k msg.
Proof.
  revert i fa acc. induction l as [|a l IH]; intros i fa acc; cbn [author_loop];
    [discriminate|].
  destruct (split_whitespace a); [discriminate | apply IH].
Qed.

(** C6 (counterexample): an empty category list is not reported as an
    invalid identifier; on the synthesis path it fails an [assert!]. *)
Lemma empty_categories_panics :
  print_arxiv net_ok (mkFeed [entry_no_categories]) = Panic.
Proof. vm_compute. reflexivity. Qed.

(** C6 (amended): empty authors, a missing published date or an empty id
    end [print_arxiv] with "Invalid DOI or arXiv ID!", the message
    [extract_id] also uses when no pattern matches. An empty category list
    is no such validation failure: on the synthesis path (no DOI declared)
    it is a panic, whatever the author names; when a DOI is declared the
    categories are not looked at and [print_arxiv] returns what
    [handle_response] returns for the DOI request. *)
Theorem print_arxiv_required_fields net parse_feed f e rest :
  entries f = e :: rest ->
  ((authors e = [] \/ published e = None \/ entry_id e = []) ->
   print_arxiv net f = Exit InvalidValue invalid_msg) /\
  (forall ax, authors e <> [] -> published e <> None -> entry_id e <> [] ->
   lookup (s2l "arxiv") (extensions e) = Some ax ->
   lookup (s2l "doi") ax = None ->
   categories e = [] ->
   print_arxiv net f = Panic) /\
  (forall ax d ds doi, authors e <> [] -> published e <> None -> entry_id e <> [] ->
   lookup (s2l "arxiv") (extensions e) = Some ax ->
   lookup (s2l "doi") ax = Some (d :: ds) ->
   ext_value d = Some doi ->
   print_arxiv net f = handle_response net parse_feed (net (request_of doi Doi)) Doi).
Proof.
  intro Hf. split; [|split].
  - apply (print_arxiv_validation_exit net f e rest Hf).
  - intros ax Ha Hp Hi Hx Hd Hc. unfold print_arxiv. rewrite Hf.
    rewrite validation_guard_false by assumption.
    rewrite Hx, Hd.
    destruct (author_loop (List.length (authors e)) 0 (authors e) [] []) as [[fa au]|k m|] eqn:E;
      cbn [bind].
    + rewrite Hc. reflexivity.
    + exfalso. eapply author_loop_not_exit. exact E.
    + reflexivity.
  - intros ax d ds doi. apply (print_arxiv_doi_path net parse_feed f e rest ax d ds doi Hf).
Qed.

Lemma print_arxiv_required_fields_witness :
  print_arxiv net_ok (mkFeed [entry_doi_no_authors]) = Exit InvalidValue invalid_msg /\
  print_arxiv net_ok (mkFeed [entry_no_categories]) = Panic /\
  print_arxiv net_ok (mkFeed [entry_blank_no_categories]) = Panic /\
  print_arxiv net_ok (mkFeed [entry_doi_no_categories])
  = handle_response net_ok no_parse (net_ok (request_of (s2l "10.1000/xyz") Doi)) Doi.
Proof.
  split; [|split; [|split]].
  - apply (proj1 (print_arxiv_required_fields net_ok no_parse (mkFeed [entry_doi_no_authors])
                    entry_doi_no_authors [] eq_refl)).
    left. reflexivity.
  - apply (proj1 (proj2 (print_arxiv_required_fields net_ok no_parse
                           (mkFeed [entry_no_categories]) entry_no_categories [] eq_refl))
             [(s2l "comment", [mkExtension (Some (s2l "12 pages"))])]);
      try reflexivity; discriminate.
  - apply (proj1 (proj2 (print_arxiv_required_fields net_ok no_parse
                           (mkFeed [entry_blank_no_categories]) entry_blank_no_categories [] eq_refl))
             [(s2l "comment", [mkExtension (Some (s2l "12 pages"))])]);
      try reflexivity; discriminate.
  - apply (proj2 (proj2 (print_arxiv_required_fields net_ok no_parse
                           (mkFeed [entry_doi_no_categories]) entry_doi_no_categories [] eq_refl))
             [(s2l "doi", [mkExtension (Some (s2l "10.1000/xyz"))])]
             (mkExtension (Some (s2l "10.1000/xyz"))) []);
      try reflexivity; discriminate.
Defined.

(** ** C7: print_doi on its own outputs *)

(** C7 (counterexample): a closing [}}}] is split once per application,
    so [print_doi] is not idempotent on its outputs. *)
Lemma print_doi_not_idempotent :
  print_doi (print_doi double_brace_bib) <> print_doi double_brace_bib.
Proof. vm_compute. discriminate. Qed.

Lemma replace_fuel_absent fuel pat rep s :
  pat <> [] -> contains pat s = false -> replace_fuel fuel pat rep s = s.
Proof.
  intro Hp. revert s; induction fuel as [|fuel IH]; intros s H; [reflexivity|].
  destruct s as [|c s']; [reflexivity|].
  cbn [replace_fuel]. cbn [contains] in H. apply orb_false_iff in H as [H1 H2].
  rewrite H1, IH by assumption. reflexivity.
Qed.

(** C7 (amended): a string already in the post-reformat shape (no
    surrounding whitespace, no [,\s?\w+=\{..\}] field boundary left for
    [DOI_FMT], no [}}]) is left unchanged by [print_doi], so applying it
    twice equals applying it once. *)
Theorem print_doi_fixpoint u :
  trim u = u -> find DOI_FMT u = None -> contains (s2l "}}") u = false ->
  print_doi u = u /\ print_doi (print_doi u) = print_doi u.
Proof.
  intros Ht Hf Hc.
  assert (E : print_doi u = u).
  { unfold print_doi, replace_all, str_replace. rewrite Ht.
    cbn [replace_all_fuel]. rewrite Hf.
    apply replace_fuel_absent; [discriminate | exact Hc]. }
  rewrite E. split; [reflexivity | exact E].
Qed.

Lemma print_doi_fixpoint_witness :
  (trim (print_doi bib_payload) = print_doi bib_payload /\
   find DOI_FMT (print_doi bib_payload) = None /\
   contains (s2l "}}") (print_doi bib_payload) = false) /\
  print_doi (print_doi (print_doi bib_payload)) = print_doi (print_doi bib_payload).
Proof.
  split; [vm_compute; auto|].
  apply (proj2 (print_doi_fixpoint (print_doi bib_payload)
                  ltac:(vm_compute; reflexivity) ltac:(vm_compute; reflexivity)
                  ltac:(vm_compute; reflexivity))).
Defined.

(** ** C9: sort and dedup before dispatch *)

Lemma nat_of_ascii_inj x y : nat_of_ascii x = nat_of_ascii y -> x = y.
Proof.
  intro H. rewrite <- (ascii_nat_embedding x), <- (ascii_nat_embedding y), H.
  reflexivity.
Qed.

Ltac leb_cases :=
  repeat match goal with
  | |- context [Nat.ltb ?x ?y] => destruct (Nat.ltb_spec x y)
  | |- context [Nat.eqb ?x ?y] => destruct (Nat.eqb_spec x y)
  | H : context [Nat.ltb ?x ?y] |- _ => destruct (Nat.ltb_spec x y)
  | H : context [Nat.eqb ?x ?y] |- _ => destruct (Nat.eqb_spec x y)
  end; simpl in *.

Lemma str_leb_total a b : str_leb a b = false -> str_leb b a = true.
Proof.
  revert b; induction a as [|x a IH]; intros [|y b] H; simpl in *;
    try reflexivity; try discriminate.
  leb_cases; try lia; auto.
Qed.

Lemma str_leb_trans a b c : str_leb a b = true -> str_leb b c = true -> str_leb a c = true.
Proof.
  revert b c; induction a as [|x a IH]; intros [|y b] [|z c] H1 H2; simpl in *;
    try reflexivity; try discriminate.
  leb_cases; try lia; try discriminate; eauto.
Qed.

Lemma str_leb_antisym a b : str_leb a b = true -> str_leb b a = true -> a = b.
Proof.
  revert b; induction a as [|x a IH]; intros [|y b] H1 H2; simpl in *;
    try reflexivity; try discriminate.
  leb_cases; try lia; try discriminate.
  f_equal; [apply nat_of_ascii_inj; assumption | auto].
Qed.

Definition str_le (a b : str) : Prop := str_leb a b = true.

Lemma in_insert_sorted x a l : In x (insert_sorted a l) <-> x = a \/ In x l.
Proof.
  induction l as [|y l IH]; simpl; [intuition congruence|].
  destruct (str_leb a y); simpl; [intuition congruence|]. rewrite IH.
  intuition congruence.
Qed.

Lemma in_sort x l : In x (sort l) <-> In x l.
Proof.
  induction l as [|a l IH]; simpl; [tauto|]. rewrite in_insert_sorted, IH.
  intuition congruence.
Qed.

Lemma insert_sorted_sorted a l :
  Sorted str_le l -> Sorted str_le (insert_sorted a l).
Proof.
  induction 1 as [|y l Hs IH Hhd]; simpl; [repeat constructor|].
  destruct (str_leb a y) eqn:E.
  - constructor; [constructor; assumption | constructor; exact E].
  - constructor; [exact IH|].
    destruct l as [|z l]; simpl; [constructor; apply str_leb_total; exact E|].
    inversion Hhd; subst.
    destruct (str_leb a z); constructor; [apply str_leb_total; exact E | assumption].
Qed.

Lemma sort_sorted l : Sorted str_le (sort l).
Proof.
  induction l; simpl; [constructor | apply insert_sorted_sorted; assumption].
Qed.

Lemma in_dedup x l : In x (dedup l) <-> In x l.
Proof.
  induction l as [|a l IH]; [simpl; tauto|].
  destruct l as [|b l']; [simpl; tauto|].
  change (In x (if str_eqb a b then dedup (b :: l') else a :: dedup (b :: l'))
          <-> In x (a :: b :: l')).
  destruct (str_eqb a b) eqn:E.
  - apply str_eqb_true in E; subst. rewrite IH. cbn [In]. tauto.
  - cbn [In]. rewrite IH. cbn [In]. tauto.
Qed.

Lemma dedup_nodup l : StronglySorted str_le l -> NoDup (dedup l).
Proof.
  induction 1 as [|a l Hs IH Hall]; simpl; [constructor|].
  destruct l as [|b l']; [repeat constructor; auto|].
  destruct (str_eqb a b) eqn:E; [exact IH|].
  constructor; [|exact IH].
  rewrite in_dedup. intro Hin.
  assert (Hab : a <> b) by (intro; subst; rewrite (proj2 (str_eqb_true b b) eq_refl) in E;
                            discriminate).
  inversion Hs as [|? ? Hs' Hb]; subst.
  destruct Hin as [->|Hin]; [congruence|].
  apply Hab. rewrite Forall_forall in Hall, Hb. apply str_leb_antisym.
  - apply Hall. left. reflexivity.
  - apply Hb. exact Hin.
Qed.

(** C9: the patterns dispatched by [main] (one [get_bibtex] task each) are
    exactly the distinct input patterns, each once; two copies of
    ["10.1000/xyz"] give a single task. *)
Theorem dispatched_distinct inputs :
  (forall p, In p (dispatched inputs) <-> In p inputs) /\
  NoDup (dispatched inputs) /\
  dispatched [s2l "10.1000/xyz"; s2l "10.1000/xyz"] = [s2l "10.1000/xyz"].
Proof.
  split; [|split].
  - intro p. unfold dispatched. rewrite in_dedup, in_sort. tauto.
  - unfold dispatched. apply dedup_nodup.
    apply Sorted_StronglySorted; [|apply sort_sorted].
    intros a b c. apply str_leb_trans.
  - vm_compute. reflexivity.
Qed.

(** ** The matcher: generic facts *)

Definition is_suffix (z s : str) : Prop := exists w, s = w ++ z.

Definition ksuf (k : str -> option str) : Prop :=
  forall s z, k s = Some z -> is_suffix z s.

Lemma is_suffix_refl s : is_suffix s s.
Proof. exists []. reflexivity. Qed.

Lemma is_suffix_cons z c s : is_suffix z s -> is_suffix z (c :: s).
Proof. intros [w ->]. exists (c :: w). reflexivity. Qed.

Lemma is_suffix_trans a b c : is_suffix a b -> is_suffix b c -> is_suffix a c.
Proof. intros [w1 ->] [w2 ->]. exists (w2 ++ w1). apply app_assoc. Qed.

Lemma is_suffix_length z s : is_suffix z s -> List.length z <= List.length s.
Proof. intros [w ->]. rewrite length_app. lia. Qed.

Lemma orelse_some a b z : orelse a b = Some z -> a = Some z \/ (a = None /\ b = Some z).
Proof. destruct a; simpl; auto. Qed.

Lemma rep_unfold p lo hi g s k :
  rep p lo hi g s k =
  (let more :=
     if hi_allows hi then
       match s with
       | c :: s' => if p c then rep p (pred lo) (hi_pred hi) g s' k else None
       | [] => None
       end
     else None in
   let stop := match lo with O => k s | S _ => None end in
   if g then orelse more stop else orelse stop more).
Proof. destruct s; reflexivity. Qed.

Lemma choice_some (g : bool) (m s : option str) (z : str) (P : Prop) :
  (m = Some z -> P) -> (s = Some z -> P) ->
  (if g then orelse m s else orelse s m) = Some z -> P.
Proof.
  intros Hm Hs H. destruct g; apply orelse_some in H as [H|[_ H]]; auto.
Qed.

Lemma rep_suffix p g k : ksuf k ->
  forall s lo hi z, rep p lo hi g s k = Some z -> is_suffix z s.
Proof.
  intros Hk s. induction s as [|c s IH]; intros lo hi z H;
    rewrite rep_unfold in H; cbv zeta in H;
    revert H; apply choice_some; try solve [destruct (hi_allows hi); discriminate];
    try solve [destruct lo; [apply Hk | discriminate]].
  destruct (hi_allows hi); [|discriminate].
  destruct (p c); [|discriminate]. intro H. apply is_suffix_cons. eapply IH; eauto.
Qed.

Lemma mt_suffix r : forall k, ksuf k -> ksuf (fun s => mt r s k).
Proof.
  induction r as [p|r1 IH1 r2 IH2|r1 IH1 r2 IH2| |p lo hi g]; intros k Hk s z H;
    simpl in H.
  - destruct s as [|c s]; [discriminate|]. destruct (p c); [|discriminate].
    apply is_suffix_cons. eapply Hk; eauto.
  - eapply (IH1 (fun s' => mt r2 s' k)); [|exact H]. apply IH2. exact Hk.
  - apply orelse_some in H as [H|[_ H]]; [eapply IH1|eapply IH2]; eauto.
  - eapply Hk; eauto.
  - eapply rep_suffix; eauto.
Qed.

Lemma kdone_suffix : ksuf kdone.
Proof. intros s z H. injection H as <-. apply is_suffix_refl. Qed.

(** Running a pattern on [x ++ t] and on [x] alone: if it fails on
    [x ++ t] it fails on [x], and if its preferred path stops exactly at
    the end of [x] it does so on [x] alone.  The patterns have no anchors
    and no look-around, so a path only reads characters it consumes. *)
Definition agree (t : str) (o1 o2 : option str) : Prop :=
  (o1 = None -> o2 = None) /\ (o1 = Some t -> o2 = Some []).

Lemma agree_none t : agree t None None.
Proof. split; [auto | discriminate]. Qed.

Lemma agree_shorter t o1 :
  (forall z, o1 = Some z -> List.length z < List.length t) -> agree t o1 None.
Proof.
  intro H. split; [auto|]. intro E. specialize (H t E). lia.
Qed.

Lemma orelse_none a b : orelse a b = None -> a = None /\ b = None.
Proof. destruct a; simpl; [discriminate | auto]. Qed.

Lemma agree_orelse t a1 a2 b1 b2 :
  agree t a1 a2 -> agree t b1 b2 -> agree t (orelse a1 b1) (orelse a2 b2).
Proof.
  intros [Ha1 Ha2] [Hb1 Hb2]. split.
  - intro E. apply orelse_none in E as [E1 E2]. rewrite (Ha1 E1), (Hb1 E2). reflexivity.
  - intro E. apply orelse_some in E as [E|[E1 E2]].
    + rewrite (Ha2 E). reflexivity.
    + rewrite (Ha1 E1). exact (Hb2 E2).
Qed.

Lemma agree_choice t (g : bool) m1 s1 m2 s2 :
  agree t m1 m2 -> agree t s1 s2 ->
  agree t (if g then orelse m1 s1 else orelse s1 m1)
          (if g then orelse m2 s2 else orelse s2 m2).
Proof. intros Hm Hs. destruct g; apply agree_orelse; assumption. Qed.

Section Agree.
Variable t : str.

Lemma rep_agree p g k1 k2 : ksuf k1 ->
  forall x lo hi,
  (forall y, is_suffix y x -> agree t (k1 (y ++ t)) (k2 y)) ->
  agree t (rep p lo hi g (x ++ t) k1) (rep p lo hi g x k2).
Proof.
  intros Hk1 x. induction x as [|c x IH]; intros lo hi Hy;
    rewrite (rep_unfold _ lo hi g _ k1), (rep_unfold _ lo hi g _ k2); cbv zeta;
    apply agree_choice.
  - destruct (hi_allows hi); [|apply agree_none]. cbn [app].
    destruct t as [|c t'] eqn:Et; [apply agree_none|].
    destruct (p c); [|apply agree_none].
    apply agree_shorter. intros z Hz.
    apply (rep_suffix p g k1 Hk1) in Hz. apply is_suffix_length in Hz.
    simpl. lia.
  - destruct lo; [|apply agree_none]. apply (Hy []). apply is_suffix_refl.
  - destruct (hi_allows hi); [|apply agree_none].
    cbn [app]. destruct (p c); [|apply agree_none].
    apply IH. intros y Hs. apply Hy. apply is_suffix_cons. exact Hs.
  - destruct lo; [|apply agree_none]. apply (Hy (c :: x)). apply is_suffix_refl.
Qed.

Lemma mt_agree r : forall x k1 k2, ksuf k1 ->
  (forall y, is_suffix y x -> agree t (k1 (y ++ t)) (k2 y)) ->
  agree t (mt r (x ++ t) k1) (mt r x k2).
Proof.
  induction r as [p|r1 IH1 r2 IH2|r1 IH1 r2 IH2| |p lo hi g];
    intros x k1 k2 Hk1 Hy; simpl.
  - destruct x as [|c x]; simpl.
    + destruct t as [|c t'] eqn:Et; [apply agree_none|].
      destruct (p c); [|apply agree_none].
      apply agree_shorter. intros z Hz. apply Hk1, is_suffix_length in Hz.
      simpl. lia.
    + destruct (p c); [|apply agree_none].
      apply Hy. apply is_suffix_cons, is_suffix_refl.
  - apply IH1; [apply mt_suffix; exact Hk1|].
    intros y Hs. apply IH2; [exact Hk1|].
    intros y' Hs'. apply Hy. eapply is_suffix_trans; eauto.
  - pose proof (IH1 x k1 k2 Hk1 Hy) as [A1 A2].
    pose proof (IH2 x k1 k2 Hk1 Hy) as [B1 B2].
    unfold orelse. split.
    + destruct (mt r1 (x ++ t) k1); [discriminate|]. rewrite A1 by reflexivity. auto.
    + destruct (mt r1 (x ++ t) k1) eqn:E.
      * intro H. rewrite A2 by exact H. reflexivity.
      * rewrite A1 by reflexivity. auto.
  - apply Hy. apply is_suffix_refl.
  - apply rep_agree; assumption.
Qed.

End Agree.

Lemma kdone_agree t x :
  forall y, is_suffix y x -> agree t (kdone (y ++ t)) (kdone y).
Proof.
  intros y _. split; [discriminate|]. intro H. injection H as H.
  assert (List.length y = 0) by (apply (f_equal (@List.length ascii)) in H;
                                 rewrite length_app in H; lia).
  destruct y; [reflexivity|discriminate].
Qed.

(** The preferred match does not look past its end. *)
Lemma mt_truncate r x t :
  mt r (x ++ t) kdone = Some t -> mt r x kdone = Some [].
Proof.
  apply (mt_agree t r x kdone kdone kdone_suffix (kdone_agree t x)).
Qed.

(** A pattern that matches at the start of [x] still matches there when
    more text follows. *)
Lemma mt_extend r x t :
  mt r (x ++ t) kdone = None -> mt r x kdone = None.
Proof.
  apply (mt_agree t r x kdone kdone kdone_suffix (kdone_agree t x)).
Qed.

(** ** Leftmost-first search *)

Definition is_infix (x s : str) : Prop := exists u v, s = u ++ x ++ v.

Lemma firstn_length_app (w r : str) : firstn (List.length w) (w ++ r) = w.
Proof. induction w as [|c w IH]; simpl; [reflexivity | rewrite IH; reflexivity]. Qed.

Lemma find_unfold r s :
  find r s =
  match mt r s kdone with
  | Some rest => Some ([], firstn (List.length s - List.length rest) s, rest)
  | None =>
      match s with
      | [] => None
      | c :: s' =>
          match find r s' with
          | Some (b, m, a) => Some (c :: b, m, a)
          | None => None
          end
      end
  end.
Proof. destruct s; reflexivity. Qed.

Lemma find_spec r s : forall b m a,
  find r s = Some (b, m, a) -> s = b ++ m ++ a /\ mt r (m ++ a) kdone = Some a.
Proof.
  induction s as [|c s IH]; intros b m a H; rewrite find_unfold in H;
    destruct (mt r _ kdone) as [rest|] eqn:E.
  - injection H as <- <- <-.
    destruct (mt_suffix r kdone kdone_suffix _ _ E) as [w Hw].
    symmetry in Hw. apply app_eq_nil in Hw as [-> ->]. auto.
  - discriminate.
  - destruct (mt_suffix r kdone kdone_suffix _ _ E) as [w Hw].
    assert (Hl : firstn (List.length (c :: s) - List.length rest) (c :: s) = w)
      by (rewrite Hw, length_app, Nat.add_sub; apply firstn_length_app).
    rewrite Hl in H. injection H as <- <- <-. rewrite <- Hw. auto.
  - destruct (find r s) as [[[b' m'] a']|] eqn:F; [|discriminate].
    injection H as <- <- <-. destruct (IH b' m' a' eq_refl) as [-> Hm]. auto.
Qed.

Lemma find_of_mt r s y :
  is_suffix y s -> mt r y kdone <> None -> find r s <> None.
Proof.
  induction s as [|c s IH]; intros [w Hw] Hy; rewrite find_unfold.
  - destruct (mt r [] kdone) eqn:E; [discriminate|].
    destruct w; [|discriminate]. simpl in Hw. subst. contradiction.
  - destruct (mt r (c :: s) kdone) eqn:E; [discriminate|].
    destruct w as [|c' w].
    + simpl in Hw. subst. contradiction.
    + injection Hw as -> Hw.
      assert (F : find r s <> None) by (apply IH; [exists w; exact Hw | exact Hy]).
      destruct (find r s) as [[[b m] a]|]; [discriminate | contradiction].
Qed.

Lemma find_start r s : mt r s kdone = Some [] -> find r s = Some ([], s, []).
Proof.
  intro H. destruct s as [|c s]; simpl; rewrite H; simpl;
    rewrite ?Nat.sub_0_r, ?firstn_all; reflexivity.
Qed.

(** A pattern that matches inside [x] matches inside any text containing
    [x]. *)
Lemma is_match_infix r x s : is_infix x s -> is_match r x = true -> is_match r s = true.
Proof.
  intros [u [v ->]] H. unfold is_match in *.
  destruct (find r x) as [[[b m] a]|] eqn:F; [|discriminate].
  apply find_spec in F as [-> Hm].
  assert (N : mt r ((m ++ a) ++ v) kdone <> None).
  { intro E. apply mt_extend in E. congruence. }
  destruct (find r (u ++ (b ++ m ++ a) ++ v)) eqn:G; [reflexivity|].
  exfalso. revert G. apply (find_of_mt r _ ((m ++ a) ++ v)); [|exact N].
  exists (u ++ b). rewrite <- !app_assoc. reflexivity.
Qed.

Lemma captures0_infix r s m : captures0 r s = Some m -> is_infix m s.
Proof.
  unfold captures0. destruct (find r s) as [[[b m'] a]|] eqn:F; [|discriminate].
  intro H. injection H as <-. apply find_spec in F as [-> _]. exists b, a. reflexivity.
Qed.

(** Searching the matched text again finds all of it. *)
Lemma captures0_self r s m : captures0 r s = Some m -> captures0 r m = Some m.
Proof.
  unfold captures0. destruct (find r s) as [[[b m'] a]|] eqn:F; [|discriminate].
  intro H. injection H as <-. apply find_spec in F as [_ Hm].
  apply mt_truncate in Hm. rewrite (find_start r m' Hm). reflexivity.
Qed.

Lemma captures0_none_infix r x s :
  is_infix x s -> captures0 r s = None -> captures0 r x = None.
Proof.
  intros Hi H. assert (Hs : is_match r s = false)
    by (unfold is_match, captures0 in *; destruct (find r s) as [[[? ?] ?]|]; congruence).
  destruct (is_match r x) eqn:Hx.
  - rewrite (is_match_infix r x s Hi Hx) in Hs. discriminate.
  - unfold is_match, captures0 in *. destruct (find r x) as [[[? ?] ?]|]; congruence.
Qed.

Lemma captures0_is_match r s m : captures0 r s = Some m -> is_match r s = true.
Proof.
  unfold captures0, is_match. destruct (find r s) as [[[? ?] ?]|]; congruence.
Qed.

Lemma in_matched_texts S pat m :
  In m (matched_texts S pat) <-> exists r, In r S /\ captures0 r pat = Some m.
Proof.
  unfold matched_texts. rewrite in_flat_map. split.
  - intros [r [Hr Hm]]. exists r. split; [exact Hr|].
    destruct (captures0 r pat); simpl in Hm; [|contradiction].
    destruct Hm as [->|[]]. reflexivity.
  - intros [r [Hr Hm]]. exists r. rewrite Hm. simpl. auto.
Qed.

Lemma matched_texts_rerun S pat id :
  (forall r, In r S -> captures0 r pat = None \/ captures0 r pat = Some id) ->
  is_infix id pat ->
  matched_texts S id = matched_texts S pat.
Proof.
  intros H Hi. induction S as [|r S IH]; [reflexivity|].
  unfold matched_texts in *. cbn [flat_map]. rewrite IH by (intros; apply H; right; auto).
  destruct (H r (or_introl eq_refl)) as [E|E]; rewrite E.
  - rewrite (captures0_none_infix r id pat Hi E). reflexivity.
  - rewrite (captures0_self r pat id E). reflexivity.
Qed.

(** [extract_id] succeeds exactly with a single match, trimmed. *)
Lemma extract_id_done S pat id :
  extract_id S pat = Done id ->
  exists m, matched_texts S pat = [m] /\ id = trim_end_slashes m.
Proof.
  unfold extract_id, collect_arrayvec1.
  destruct (matched_texts S pat) as [|m [|m' l]]; simpl; try discriminate.
  intro H. injection H as <-. eauto.
Qed.

(** Re-running [extract_id] on an id it produced, when nothing was trimmed
    from the match, yields the id again. *)
Lemma extract_id_rerun S pat id :
  extract_id S pat = Done id -> In id (matched_texts S pat) ->
  extract_id S id = Done id.
Proof.
  intros H Hin. pose proof H as H'.
  apply extract_id_done in H as [m [Hm Hid]]. rewrite Hm in Hin.
  destruct Hin as [->|[]].
  assert (Hr : matched_texts S id = [id]).
  { rewrite matched_texts_rerun with (pat := pat); [exact Hm| |].
    - intros r Hr. destruct (captures0 r pat) as [m'|] eqn:E; [right|left; reflexivity].
      assert (In m' (matched_texts S pat)) by (apply in_matched_texts; eauto).
      rewrite Hm in H. destruct H as [<-|[]]. reflexivity.
    - assert (In id (matched_texts S pat)) by (rewrite Hm; left; reflexivity).
      apply in_matched_texts in H as [r [_ E]]. eapply captures0_infix; eauto. }
  unfold extract_id, collect_arrayvec1. rewrite Hr. simpl. rewrite <- Hid. reflexivity.
Qed.

(** * Further properties of main.rs *)

(** ** extract_id *)

Lemma existsb_filter_length {A} (f : A -> bool) l :
  existsb f l = negb (List.length (filter f l) =? 0).
Proof.
  induction l as [|a l IH]; [reflexivity|]. cbn [existsb filter].
  destruct (f a); [reflexivity | exact IH].
Qed.

Lemma matched_texts_length S pat :
  List.length (matched_texts S pat) = List.length (filter (fun re => is_match re pat) S).
Proof.
  induction S as [|r S IH]; [reflexivity|].
  unfold matched_texts in *. cbn [flat_map filter]. rewrite length_app, IH.
  unfold captures0, is_match. destruct (find r pat) as [[[b m] a]|]; reflexivity.
Qed.

Lemma extract_id_exit_iff S pat :
  extract_id S pat = Exit ValueValidation invalid_msg <->
  existsb (fun re => is_match re pat) S = false.
Proof.
  rewrite existsb_filter_length, <- matched_texts_length.
  unfold extract_id, collect_arrayvec1.
  destruct (matched_texts S pat) as [|m [|m' l]]; cbn; split; intro H;
    try reflexivity; discriminate.
Qed.

Lemma extract_id_panic_iff S pat :
  extract_id S pat = Panic <-> 1 < List.length (filter (fun re => is_match re pat) S).
Proof.
  rewrite <- matched_texts_length. unfold extract_id, collect_arrayvec1.
  destruct (matched_texts S pat) as [|m [|m' l]]; cbn; split; intro H;
    try reflexivity; try discriminate; lia.
Qed.

Lemma extract_id_exit_msg S pat k msg :
  extract_id S pat = Exit k msg -> k = ValueValidation /\ msg = invalid_msg.
Proof.
  unfold extract_id, collect_arrayvec1.
  destruct (1 <? List.length (matched_texts S pat)); [discriminate|].
  cbn [bind]. destruct (matched_texts S pat); [|discriminate].
  intro H. injection H as <- <-. split; reflexivity.
Qed.

(** [extract_id] exits with "Invalid DOI or arXiv ID!" (kind
    [ValueValidation]) exactly when no pattern of the set matches the
    input, panics exactly when two or more patterns match it, and takes no
    other exit. *)
Theorem extract_id_outcomes S pat :
  (extract_id S pat = Exit ValueValidation invalid_msg <->
   existsb (fun re => is_match re pat) S = false) /\
  (extract_id S pat = Panic <-> 1 < List.length (filter (fun re => is_match re pat) S)) /\
  (forall k msg, extract_id S pat = Exit k msg -> k = ValueValidation /\ msg = invalid_msg).
Proof.
  split; [apply extract_id_exit_iff|]. split; [apply extract_id_panic_iff|].
  apply extract_id_exit_msg.
Qed.

Lemma drop_slashes_spec x :
  (exists w, x = w ++ drop_slashes x) /\ (forall y, drop_slashes x <> "/"%char :: y).
Proof.
  induction x as [|c x [[w Hw] IH]]; cbn [drop_slashes].
  - split; [exists []; reflexivity | discriminate].
  - destruct (ascii_eqb c "/"%char) eqn:E.
    + split; [exists (c :: w); cbn; f_equal; exact Hw | exact IH].
    + split; [exists []; reflexivity|]. intros y H. injection H as -> _.
      rewrite (proj2 (ascii_eqb_true _ _) eq_refl) in E. discriminate.
Qed.

Lemma trim_end_slashes_spec m :
  (exists w, m = trim_end_slashes m ++ w) /\
  (forall u, trim_end_slashes m <> u ++ ["/"%char]).
Proof.
  destruct (drop_slashes_spec (rev m)) as [[w Hw] H].
  unfold trim_end_slashes. remember (drop_slashes (rev m)) as d eqn:Ed. split.
  - exists (rev w). rewrite <- rev_app_distr, <- Hw, rev_involutive. reflexivity.
  - intros u E. apply (H (rev u)). rewrite <- (rev_involutive d), E, rev_app_distr.
    reflexivity.
Qed.

(** The id [extract_id] returns occurs in its input, and does not end in
    [/]. *)
Theorem extract_id_substring S pat id :
  extract_id S pat = Done id ->
  is_infix id pat /\ (forall u, id <> u ++ ["/"%char]).
Proof.
  intro H. apply extract_id_done in H as [m [Hm ->]].
  assert (Hin : In m (matched_texts S pat)) by (rewrite Hm; left; reflexivity).
  apply in_matched_texts in Hin as [r [_ Hc]].
  destruct (captures0_infix r pat m Hc) as [u [v Hp]].
  destruct (trim_end_slashes_spec m) as [[w Hw] Hs].
  split; [|exact Hs].
  exists u, (w ++ v). rewrite Hp. rewrite Hw at 1. rewrite <- !app_assoc. reflexivity.
Qed.

Lemma extract_id_substring_witness :
  extract_id ARXIV_RE (s2l "https://arxiv.org/abs/hep-th/9910001v2/")
    = Done (s2l "hep-th/9910001v2") /\
  is_infix (s2l "hep-th/9910001v2") (s2l "https://arxiv.org/abs/hep-th/9910001v2/") /\
  (forall u, s2l "hep-th/9910001v2" <> u ++ ["/"%char]).
Proof.
  split; [vm_compute; reflexivity|].
  apply (extract_id_substring ARXIV_RE (s2l "https://arxiv.org/abs/hep-th/9910001v2/")).
  vm_compute. reflexivity.
Defined.

Lemma wiley_prefix_matches c :
  doi_suffix_char c = true ->
  is_match DOI_RE_general (s2l "10.1002/" ++ [c]) = true /\
  is_match DOI_RE_wiley (s2l "10.1002/" ++ [c]) = true.
Proof.
  destruct c as [[] [] [] [] [] [] [] []]; vm_compute; intro H;
    (discriminate || (split; reflexivity)).
Qed.

(** Every argument containing [10.1002/] followed by a DOI suffix character
    is matched by both DOI patterns: [extract_id] on [DOI_RE] panics, and so
    does [get_bibtex], whatever the network returns. *)
Theorem wiley_doi_panics net parse_feed u v c :
  doi_suffix_char c = true ->
  extract_id DOI_RE (u ++ s2l "10.1002/" ++ c :: v) = Panic /\
  get_bibtex net parse_feed (u ++ s2l "10.1002/" ++ c :: v) = Panic.
Proof.
  intro Hc. destruct (wiley_prefix_matches c Hc) as [Hg Hw].
  remember (u ++ s2l "10.1002/" ++ c :: v) as pat eqn:Ep.
  assert (Hi : is_infix (s2l "10.1002/" ++ [c]) pat)
    by (exists u, v; rewrite Ep, <- app_assoc; reflexivity).
  apply (is_match_infix _ _ _ Hi) in Hg. apply (is_match_infix _ _ _ Hi) in Hw.
  assert (Hx : extract_id DOI_RE pat = Panic).
  { apply extract_id_panic_iff. unfold DOI_RE. cbn [filter]. rewrite Hg, Hw.
    cbn. lia. }
  split; [exact Hx|].
  assert (Hd : existsb (fun re => is_match re pat) DOI_RE = true)
    by (unfold DOI_RE; cbn [existsb]; rewrite Hg; reflexivity).
  unfold get_bibtex, classify. rewrite Hd, orb_true_r, Hx. reflexivity.
Qed.

Lemma wiley_doi_panics_witness :
  doi_suffix_char "a"%char = true /\
  extract_id DOI_RE ([] ++ s2l "10.1002/" ++ "a"%char :: s2l "nie.201915678") = Panic /\
  get_bibtex net_ok no_parse ([] ++ s2l "10.1002/" ++ "a"%char :: s2l "nie.201915678")
    = Panic.
Proof.
  split; [vm_compute; reflexivity|].
  apply (wiley_doi_panics net_ok no_parse [] (s2l "nie.201915678") "a"%char).
  vm_compute. reflexivity.
Defined.

(** ** Classification in get_bibtex *)

Lemma bind_pair_exit (m : outcome str) (t : IdType) k msg :
  bind m (fun id => Done (id, t)) = Exit k msg <-> m = Exit k msg.
Proof. destruct m; cbn; split; congruence. Qed.

(** An argument matched by [DOI_IDENT_RE] or by a DOI pattern is never
    classified as an arXiv id, even when it also contains one. *)
Theorem classify_doi_first pat id :
  classify pat = Done (id, Arxiv) ->
  is_match DOI_IDENT_RE pat = false /\ existsb (fun re => is_match re pat) DOI_RE = false.
Proof.
  unfold classify.
  destruct (is_match DOI_IDENT_RE pat || existsb (fun re => is_match re pat) DOI_RE) eqn:Ed.
  - destruct (extract_id DOI_RE pat); cbn [bind]; intro H; inversion H.
  - intros _. apply orb_false_iff in Ed. exact Ed.
Qed.

Lemma classify_doi_first_witness :
  classify (s2l "arxiv:2105.11572") = Done (s2l "2105.11572", Arxiv) /\
  is_match DOI_IDENT_RE (s2l "arxiv:2105.11572") = false /\
  existsb (fun re => is_match re (s2l "arxiv:2105.11572")) DOI_RE = false.
Proof.
  split; [vm_compute; reflexivity|].
  apply (classify_doi_first _ (s2l "2105.11572")). vm_compute. reflexivity.
Defined.

(** Classification ends with "Invalid DOI or arXiv ID!" exactly when the
    argument is sent to the DOI branch by [DOI_IDENT_RE] alone (no DOI
    pattern matches), or, matching nothing on the DOI side, to the arXiv
    branch by [ARXIV_IDENT_RE] alone: the other kind is never tried. *)
Theorem classify_invalid_exit pat :
  classify pat = Exit ValueValidation invalid_msg <->
  (is_match DOI_IDENT_RE pat = true /\ existsb (fun re => is_match re pat) DOI_RE = false) \/
  (is_match DOI_IDENT_RE pat = false /\ existsb (fun re => is_match re pat) DOI_RE = false /\
   is_match ARXIV_IDENT_RE pat = true /\ existsb (fun re => is_match re pat) ARXIV_RE = false).
Proof.
  unfold classify.
  destruct (is_match DOI_IDENT_RE pat) eqn:E1,
    (existsb (fun re => is_match re pat) DOI_RE) eqn:E2,
    (is_match ARXIV_IDENT_RE pat) eqn:E3,
    (existsb (fun re => is_match re pat) ARXIV_RE) eqn:E4;
    cbn [orb]; rewrite ?bind_pair_exit, ?extract_id_exit_iff, ?E2, ?E4;
    intuition discriminate.
Qed.

Lemma handle_doi_response_exit_msg res k msg :
  handle_doi_response res = Exit k msg -> msg = invalid_msg.
Proof.
  unfold handle_doi_response, response_text, bind.
  destruct res as [r|]; [|congruence]. destruct (text r); [|discriminate].
  destruct (contains _ _); congruence.
Qed.

Ltac exit_msg_leaves :=
  first [ apply handle_doi_response_exit_msg | exit_msg_leaf ]
with exit_msg_leaf :=
  let H := fresh in
  intro H; try discriminate;
  injection H as <- <-;
  first [ reflexivity
        | match goal with
          | E : extract_id _ _ = Exit _ _ |- _ => exact (proj2 (extract_id_exit_msg _ _ _ _ E))
          end
        | exfalso; eapply author_loop_not_exit; eassumption ].

Lemma print_arxiv_exit_msg net f k msg : print_arxiv net f = Exit k msg -> msg = invalid_msg.
Proof.
  unfold print_arxiv, bind.
  repeat match goal with
         | |- context [match ?x with _ => _ end] => destruct x eqn:?
         end; exit_msg_leaves.
Qed.

Lemma handle_response_exit_msg net pf res t k msg :
  handle_response net pf res t = Exit k msg -> msg = invalid_msg.
Proof.
  unfold handle_response, response_text, bind.
  destruct res as [r|]; [|congruence]. destruct (text r) as [b|]; [|discriminate].
  destruct (contains _ b); [congruence|]. destruct t; [discriminate|].
  destruct (pf b); [apply print_arxiv_exit_msg | discriminate].
Qed.

Lemma invalid_not_please : invalid_msg <> please_msg.
Proof. vm_compute. discriminate. Qed.

(** [get_bibtex] ends with "Please enter a valid DOI or arXiv ID!" exactly
    when none of the six patterns matches the argument, whatever the network
    and the feed parser return. *)
Theorem get_bibtex_please_exit net pf pat :
  get_bibtex net pf pat = Exit InvalidValue please_msg <->
  (is_match DOI_IDENT_RE pat || existsb (fun re => is_match re pat) DOI_RE
   || is_match ARXIV_IDENT_RE pat || existsb (fun re => is_match re pat) ARXIV_RE) = false.
Proof.
  assert (Hx : forall S, extract_id S pat = Exit InvalidValue please_msg -> False)
    by (intros S H; apply extract_id_exit_msg in H as [H _]; discriminate).
  assert (Hh : forall id t, handle_response net pf (request_info net id t) t
                            = Exit InvalidValue please_msg -> False)
    by (intros id t H; apply handle_response_exit_msg in H; exact (invalid_not_please (eq_sym H))).
  unfold get_bibtex, classify.
  destruct (is_match DOI_IDENT_RE pat || existsb (fun re => is_match re pat) DOI_RE);
    cbn [orb].
  - split; [|discriminate]. intro H. exfalso.
    destruct (extract_id DOI_RE pat) as [id| k m |] eqn:E; cbn [bind] in H;
      [eapply Hh; exact H | | discriminate].
    injection H as -> ->. exact (Hx _ E).
  - destruct (is_match ARXIV_IDENT_RE pat || existsb (fun re => is_match re pat) ARXIV_RE).
    + split; [|discriminate]. intro H. exfalso.
      destruct (extract_id ARXIV_RE pat) as [id| k m |] eqn:E; cbn [bind] in H;
        [eapply Hh; exact H | | discriminate].
      injection H as -> ->. exact (Hx _ E).
    + split; reflexivity.
Qed.

(** ** main: the dispatched patterns *)

Lemma dedup_sorted l : StronglySorted str_le l -> StronglySorted str_le (dedup l).
Proof.
  induction 1 as [|a l Hs IH Hall]; [constructor|].
  destruct l as [|b l']; [repeat constructor|].
  change (StronglySorted str_le
            (if str_eqb a b then dedup (b :: l') else a :: dedup (b :: l'))).
  destruct (str_eqb a b); [exact IH|].
  constructor; [exact IH|].
  rewrite Forall_forall in *. intros x Hx. apply Hall. apply in_dedup. exact Hx.
Qed.

Lemma sorted_nodup_unique l1 l2 :
  StronglySorted str_le l1 -> StronglySorted str_le l2 -> NoDup l1 -> NoDup l2 ->
  (forall x, In x l1 <-> In x l2) -> l1 = l2.
Proof.
  revert l2. induction l1 as [|a l1 IH]; intros [|b l2] S1 S2 N1 N2 H.
  - reflexivity.
  - exfalso. apply (proj2 (H b)). left. reflexivity.
  - exfalso. apply (proj1 (H a)). left. reflexivity.
  - inversion S1 as [|? ? S1' F1]; inversion S2 as [|? ? S2' F2]; subst.
    inversion N1 as [|? ? Na N1']; inversion N2 as [|? ? Nb N2']; subst.
    rewrite Forall_forall in F1, F2.
    assert (Hab : a = b).
    { destruct (proj1 (H a) (or_introl eq_refl)) as [E|Ha]; [congruence|].
      destruct (proj2 (H b) (or_introl eq_refl)) as [E|Hb]; [congruence|].
      apply str_leb_antisym; [apply F1; exact Hb | apply F2; exact Ha]. }
    subst b. f_equal. apply IH; try assumption.
    intro x. split; intro Hx.
    + destruct (proj1 (H x) (or_intror Hx)) as [E|Hx']; [subst; contradiction | exact Hx'].
    + destruct (proj2 (H x) (or_intror Hx)) as [E|Hx']; [subst; contradiction | exact Hx'].
Qed.

Lemma dispatched_sorted_nodup l :
  StronglySorted str_le (dispatched l) /\ NoDup (dispatched l).
Proof.
  assert (Hs : StronglySorted str_le (sort l)).
  { apply Sorted_StronglySorted; [|apply sort_sorted].
    intros a b c. apply str_leb_trans. }
  unfold dispatched. split; [apply dedup_sorted | apply dedup_nodup]; exact Hs.
Qed.

(** The tasks [main] runs, and their order, depend only on the set of
    distinct arguments: reordering or repeating arguments changes nothing. *)
Theorem main_tasks_same_patterns net pf l1 l2 :
  (forall x, In x l1 <-> In x l2) ->
  dispatched l1 = dispatched l2 /\ main_tasks net pf l1 = main_tasks net pf l2.
Proof.
  intro H.
  destruct (dispatched_sorted_nodup l1) as [S1 N1].
  destruct (dispatched_sorted_nodup l2) as [S2 N2].
  assert (D : dispatched l1 = dispatched l2).
  { apply sorted_nodup_unique; try assumption.
    intro x. unfold dispatched. rewrite !in_dedup, !in_sort. apply H. }
  split; [exact D|]. unfold main_tasks. rewrite D. reflexivity.
Qed.

Lemma main_tasks_same_patterns_witness :
  (forall x, In x [s2l "b"; s2l "a"; s2l "b"] <-> In x [s2l "a"; s2l "b"]) /\
  dispatched [s2l "b"; s2l "a"; s2l "b"] = dispatched [s2l "a"; s2l "b"] /\
  main_tasks net_ok no_parse [s2l "b"; s2l "a"; s2l "b"]
    = main_tasks net_ok no_parse [s2l "a"; s2l "b"].
Proof.
  assert (H : forall x, In x [s2l "b"; s2l "a"; s2l "b"] <-> In x [s2l "a"; s2l "b"])
    by (intro x; simpl; tauto).
  split; [exact H|]. apply (main_tasks_same_patterns net_ok no_parse _ _ H).
Defined.

(** ** print_doi *)

Lemma filter_rev {A} (f : A -> bool) l : filter f (rev l) = rev (filter f l).
Proof.
  induction l as [|a l IH]; [reflexivity|]. cbn [rev filter].
  rewrite filter_app, IH. cbn [filter]. destruct (f a); cbn; [reflexivity | apply app_nil_r].
Qed.

Lemma trim_start_filter s :
  filter (fun c => negb (is_ws c)) (trim_start s) = filter (fun c => negb (is_ws c)) s.
Proof.
  induction s as [|c s IH]; [reflexivity|]. cbn [trim_start filter].
  destruct (is_ws c) eqn:E; cbn [filter]; rewrite ?E; [exact IH | reflexivity].
Qed.

Lemma trim_filter s :
  filter (fun c => negb (is_ws c)) (trim s) = filter (fun c => negb (is_ws c)) s.
Proof.
  unfold trim, trim_end. rewrite filter_rev, trim_start_filter, filter_rev, rev_involutive.
  apply trim_start_filter.
Qed.

Lemma rep_cont p g k : forall s lo hi z,
  rep p lo hi g s k = Some z -> exists y, is_suffix y s /\ k y = Some z.
Proof.
  intros s. induction s as [|c s IH]; intros lo hi z H;
    rewrite rep_unfold in H; cbv zeta in H;
    revert H; apply choice_some; try solve [destruct (hi_allows hi); discriminate];
    try solve [destruct lo; [intro H; eexists; split; [apply is_suffix_refl | exact H]
                            | discriminate]].
  destruct (hi_allows hi); [|discriminate].
  destruct (p c); [|discriminate]. intro H.
  destruct (IH _ _ _ H) as [y [Hy Hk]].
  exists y. split; [apply is_suffix_cons; exact Hy | exact Hk].
Qed.

(** A successful path hands its continuation a suffix of the input. *)
Lemma mt_cont r : forall s k z, mt r s k = Some z -> exists y, is_suffix y s /\ k y = Some z.
Proof.
  induction r as [p|r1 IH1 r2 IH2|r1 IH1 r2 IH2| |p lo hi g]; intros s k z H; simpl in H.
  - destruct s as [|c s]; [discriminate|]. destruct (p c); [|discriminate].
    exists s. split; [apply is_suffix_cons, is_suffix_refl | exact H].
  - destruct (IH1 _ _ _ H) as [y1 [Hy1 H1]]. destruct (IH2 _ _ _ H1) as [y2 [Hy2 H2]].
    exists y2. split; [eapply is_suffix_trans; eauto | exact H2].
  - apply orelse_some in H as [H|[_ H]]; [apply IH1 in H | apply IH2 in H]; exact H.
  - exists s. split; [apply is_suffix_refl | exact H].
  - eapply rep_cont; eauto.
Qed.

Lemma mt_seq_cont r1 r2 s k z :
  mt (RSeq r1 r2) s k = Some z -> exists y, is_suffix y s /\ mt r2 y k = Some z.
Proof. intro H. exact (mt_cont r1 s (fun s' => mt r2 s' k) z H). Qed.

Lemma mt_seq_class_shorter p r s z :
  mt (RSeq (RClass p) r) s kdone = Some z -> List.length z < List.length s.
Proof.
  intro H. cbn [mt] in H. destruct s as [|c s]; [discriminate|].
  destruct (p c); [|discriminate].
  apply (mt_suffix r kdone kdone_suffix), is_suffix_length in H. cbn. lia.
Qed.

Lemma group1_consumes x a :
  mt DOI_FMT_group1 x kdone = Some a -> List.length a < List.length x.
Proof.
  intro H. unfold DOI_FMT_group1, lit in H.
  apply mt_seq_cont in H as [y1 [H1 H]]. apply mt_seq_cont in H as [y2 [H2 H]].
  apply mt_seq_class_shorter in H.
  apply is_suffix_length in H1. apply is_suffix_length in H2. lia.
Qed.

(** A match of [DOI_FMT] is a comma followed by at least one character. *)
Lemma doi_fmt_match_shape m a :
  mt DOI_FMT (m ++ a) kdone = Some a -> exists c m', m = ","%char :: c :: m'.
Proof.
  intro H. unfold DOI_FMT in H. destruct m as [|c0 m1].
  - apply mt_seq_class_shorter in H. cbn in H. lia.
  - cbn [app mt lit] in H. destruct (ascii_eqb "," c0) eqn:E; [|discriminate].
    apply ascii_eqb_true in E. subst c0.
    apply group1_consumes in H. rewrite length_app in H.
    destruct m1 as [|c m']; [cbn in H; lia|]. eauto.
Qed.

Lemma replace_all_filter n s :
  filter (fun c => negb (is_ws c)) (replace_all_fuel n DOI_FMT doi_fmt_rep s)
  = filter (fun c => negb (is_ws c)) s.
Proof.
  revert s; induction n as [|n IH]; intro s; [reflexivity|].
  cbn [replace_all_fuel]. destruct (find DOI_FMT s) as [[[b m] a]|] eqn:F; [|reflexivity].
  apply find_spec in F as [-> Hm]. apply doi_fmt_match_shape in Hm as [c [m' ->]].
  rewrite !filter_app, IH. reflexivity.
Qed.

Lemma starts_with_app pat s : starts_with pat s = true -> s = pat ++ skipn (List.length pat) s.
Proof.
  revert s; induction pat as [|p pat IH]; intros [|c s] H; cbn [starts_with] in H;
    try discriminate; try reflexivity.
  apply andb_true_iff in H as [H1 H2]. apply ascii_eqb_true in H1. subst.
  cbn [app List.length skipn]. f_equal. apply IH. exact H2.
Qed.

Lemma replace_fuel_filter f fuel pat rep s :
  filter f rep = filter f pat -> filter f (replace_fuel fuel pat rep s) = filter f s.
Proof.
  intro Hr. revert s; induction fuel as [|fuel IH]; intro s; [reflexivity|].
  destruct s as [|c s']; [reflexivity|]. cbn [replace_fuel].
  destruct (starts_with pat (c :: s')) eqn:E.
  - rewrite filter_app, IH, Hr, <- filter_app, <- (starts_with_app _ _ E). reflexivity.
  - cbn [filter]. rewrite IH. reflexivity.
Qed.

(** [print_doi] only adds or removes whitespace: the non-whitespace
    characters of its output are those of its input, in order. *)
Theorem print_doi_whitespace_only s :
  filter (fun c => negb (is_ws c)) (print_doi s) = filter (fun c => negb (is_ws c)) s.
Proof.
  unfold print_doi, str_replace, replace_all.
  rewrite replace_fuel_filter by reflexivity.
  rewrite replace_all_filter. apply trim_filter.
Qed.

Lemma hd_error_app {A} (l1 l2 : list A) :
  hd_error (l1 ++ l2) = match hd_error l1 with Some c => Some c | None => hd_error l2 end.
Proof. destruct l1; reflexivity. Qed.

Lemma replace_all_edges n s :
  hd_error (replace_all_fuel n DOI_FMT doi_fmt_rep s) = hd_error s /\
  hd_error (rev (replace_all_fuel n DOI_FMT doi_fmt_rep s)) = hd_error (rev s).
Proof.
  revert s; induction n as [|n IH]; intro s; [split; reflexivity|].
  cbn [replace_all_fuel]. destruct (find DOI_FMT s) as [[[b m] a]|] eqn:F;
    [|split; reflexivity].
  apply find_spec in F as [-> Hm]. apply doi_fmt_match_shape in Hm as [c [m' ->]].
  destruct (IH a) as [_ IHl]. split.
  - destruct b; reflexivity.
  - rewrite !rev_app_distr, !hd_error_app, IHl. unfold doi_fmt_rep. cbn [tl rev].
    rewrite !hd_error_app. destruct (hd_error (rev a)); [reflexivity|].
    rewrite rev_app_distr. cbn [rev]. rewrite !hd_error_app.
    destruct (hd_error (rev m')); reflexivity.
Qed.

Lemma replace_fuel_edges fuel pat rep s :
  hd_error rep = hd_error pat -> hd_error (rev rep) = hd_error (rev pat) ->
  hd_error (replace_fuel fuel pat rep s) = hd_error s /\
  hd_error (rev (replace_fuel fuel pat rep s)) = hd_error (rev s).
Proof.
  intros Hh Hl. revert s; induction fuel as [|fuel IH]; intro s; [split; reflexivity|].
  destruct s as [|c s']; [split; reflexivity|]. cbn [replace_fuel].
  destruct (starts_with pat (c :: s')) eqn:E.
  - pose proof (starts_with_app _ _ E) as Es.
    remember (skipn (List.length pat) (c :: s')) as rest eqn:Er.
    destruct (IH rest) as [IHh IHl]. rewrite Es.
    rewrite !hd_error_app, Hh, !rev_app_distr, !hd_error_app, IHh, IHl, Hl. split; reflexivity.
  - destruct (IH s') as [_ IHl]. split; [reflexivity|].
    cbn [rev]. rewrite !hd_error_app, IHl. reflexivity.
Qed.

Lemma trim_start_hd s :
  match hd_error (trim_start s) with Some c => is_ws c = false | None => True end.
Proof.
  induction s as [|c s IH]; [exact I|]. cbn [trim_start].
  destruct (is_ws c) eqn:E; [exact IH | exact E].
Qed.

Lemma trim_start_suffix s : exists w, s = w ++ trim_start s.
Proof.
  induction s as [|c s [w IH]]; [exists []; reflexivity|]. cbn [trim_start].
  destruct (is_ws c); [exists (c :: w); cbn [app]; f_equal; exact IH | exists []; reflexivity].
Qed.

Lemma trim_edges s :
  match hd_error (trim s) with Some c => is_ws c = false | None => True end /\
  match hd_error (rev (trim s)) with Some c => is_ws c = false | None => True end.
Proof.
  unfold trim, trim_end. split.
  - pose proof (trim_start_hd s) as Ht. remember (trim_start s) as t eqn:E0.
    destruct (trim_start_suffix (rev t)) as [w Hw].
    apply (f_equal (@rev ascii)) in Hw. rewrite rev_involutive, rev_app_distr in Hw.
    rewrite Hw, hd_error_app in Ht.
    destruct (hd_error (rev (trim_start (rev t)))); [exact Ht | exact I].
  - rewrite rev_involutive. apply trim_start_hd.
Qed.

Lemma trim_fixed x :
  match hd_error x with Some c => is_ws c = false | None => True end ->
  match hd_error (rev x) with Some c => is_ws c = false | None => True end ->
  trim x = x.
Proof.
  intros H1 H2. unfold trim, trim_end.
  assert (E1 : trim_start x = x).
  { destruct x as [|c x]; [reflexivity|]. cbn [hd_error] in H1. cbn [trim_start].
    rewrite H1. reflexivity. }
  assert (E2 : trim_start (rev x) = rev x).
  { revert H2. destruct (rev x) as [|c y]; intro H2; [reflexivity|].
    cbn [hd_error] in H2. cbn [trim_start]. rewrite H2. reflexivity. }
  rewrite E1, E2. apply rev_involutive.
Qed.

(** The output of [print_doi] has no leading or trailing whitespace. *)
Theorem print_doi_trimmed s : trim (print_doi s) = print_doi s.
Proof.
  unfold print_doi, str_replace, replace_all.
  destruct (trim_edges s) as [H1 H2].
  destruct (replace_all_edges (S (List.length (trim s))) (trim s)) as [A1 A2].
  remember (replace_all_fuel (S (List.length (trim s))) DOI_FMT doi_fmt_rep (trim s))
    as x eqn:Ex.
  destruct (replace_fuel_edges (S (List.length x)) (s2l "}}") ["}"%char; nl; "}"%char] x
              eq_refl eq_refl) as [B1 B2].
  apply trim_fixed; [rewrite B1, A1; exact H1 | rewrite B2, A2; exact H2].
Qed.

(** ** extract_id: the first characters of the id *)

Lemma extract_id_match S pat id :
  extract_id S pat = Done id ->
  exists r m a, In r S /\ mt r (m ++ a) kdone = Some a /\ id = trim_end_slashes m.
Proof.
  intro H. apply extract_id_done in H as [m [Hm ->]].
  assert (Hin : In m (matched_texts S pat)) by (rewrite Hm; left; reflexivity).
  apply in_matched_texts in Hin as [r [Hr Hc]].
  unfold captures0 in Hc. destruct (find r pat) as [[[b m0] a]|] eqn:F; [|discriminate].
  injection Hc as Hc. subst. apply find_spec in F as [_ Hmt].
  exists r; eexists; eexists. split; [exact Hr|]. split; [exact Hmt | reflexivity].
Qed.

Lemma mt_lits w : forall x k z,
  mt (lits w) x k = Some z -> exists x', x = w ++ x' /\ k x' = Some z.
Proof.
  induction w as [|c w IH]; intros x k z H; cbn [lits mt] in H.
  - exists x. split; [reflexivity | exact H].
  - unfold lit in H. cbn [mt] in H. destruct x as [|d x]; [discriminate|].
    destruct (ascii_eqb c d) eqn:E; [|discriminate]. apply ascii_eqb_true in E. subst d.
    destruct (IH _ _ _ H) as [x' [-> Hk]]. exists x'. split; [reflexivity | exact Hk].
Qed.

Lemma app_prefix_of_longer (m a w x : str) :
  m ++ a = w ++ x -> List.length a <= List.length x -> exists m', m = w ++ m'.
Proof.
  intros E Hl. apply app_eq_app in E as [l [[-> _]|[-> Ea]]]; [eauto|].
  subst a. rewrite length_app in Hl. destruct l; [|cbn in Hl; lia].
  exists []. rewrite !app_nil_r. reflexivity.
Qed.

Lemma lits_match_prefix w r2 m a :
  mt (RSeq (lits w) r2) (m ++ a) kdone = Some a -> exists m', m = w ++ m'.
Proof.
  intro H. cbn [mt] in H. apply mt_lits in H as [x' [Hx Hk]].
  apply (mt_suffix r2 kdone kdone_suffix), is_suffix_length in Hk.
  eapply app_prefix_of_longer; eauto.
Qed.

Lemma rep_first_match p lo hi g r2 m a :
  mt (RSeq (RRep p (S lo) hi g) r2) (m ++ a) kdone = Some a ->
  exists c m', m = c :: m' /\ p c = true.
Proof.
  intro H. cbn [mt] in H. remember (m ++ a) as x eqn:Ex.
  rewrite rep_unfold in H. cbv zeta in H.
  assert (Hm : exists c s', x = c :: s' /\ p c = true /\
                 rep p lo (hi_pred hi) g s' (fun s => mt r2 s kdone) = Some a).
  { destruct x as [|c s']; destruct (hi_allows hi);
      try (destruct g; cbn in H; discriminate).
    destruct (p c) eqn:Pc; [|destruct g; cbn in H; discriminate].
    exists c, s'. split; [reflexivity|]. split; [exact Pc|].
    destruct g; apply orelse_some in H as [H|[_ H]]; (exact H || discriminate). }
  destruct Hm as [c [s' [-> [Pc Hr]]]].
  apply rep_cont in Hr as [y [Hy Hk]].
  apply (mt_suffix r2 kdone kdone_suffix), is_suffix_length in Hk.
  apply is_suffix_length in Hy.
  destruct m as [|c0 m'].
  - cbn in Ex. subst a. cbn in Hk, Hy. lia.
  - injection Ex as E _. exists c0, m'. split; [reflexivity | congruence].
Qed.

Lemma drop_slashes_keep x c y :
  ascii_eqb c "/"%char = false -> exists z, drop_slashes (x ++ c :: y) = z ++ c :: y.
Proof.
  intro H. induction x as [|d x IH]; cbn [app drop_slashes].
  - rewrite H. exists []. reflexivity.
  - destruct (ascii_eqb d "/"%char); [exact IH | exists (d :: x); reflexivity].
Qed.

Lemma trim_end_slashes_keep p c q :
  ascii_eqb c "/"%char = false -> exists t, trim_end_slashes (p ++ c :: q) = p ++ c :: t.
Proof.
  intro H. unfold trim_end_slashes. rewrite rev_app_distr. cbn [rev].
  rewrite <- app_assoc. cbn [app].
  destruct (drop_slashes_keep (rev q) c (rev p) H) as [z Hz].
  rewrite Hz, rev_app_distr. cbn [rev]. rewrite rev_involutive, <- app_assoc.
  exists (rev z). reflexivity.
Qed.

Lemma class_not_slash (p : ascii -> bool) c :
  p "/"%char = false -> p c = true -> ascii_eqb c "/"%char = false.
Proof.
  intros Hs Hc. destruct (ascii_eqb c "/"%char) eqn:E; [|reflexivity].
  apply ascii_eqb_true in E. subst. congruence.
Qed.

(** A DOI that [extract_id] returns always starts with [10], and an arXiv id
    always starts with a digit or a lowercase letter: neither is empty. *)
Theorem extract_id_shape pat id :
  (extract_id DOI_RE pat = Done id -> exists t, id = s2l "10" ++ t) /\
  (extract_id ARXIV_RE pat = Done id ->
     exists c t, id = c :: t /\ (is_digit c || is_lower c) = true).
Proof.
  split; intro H; apply extract_id_match in H as [r [m [a [Hr [Hmt ->]]]]].
  - assert (Hp : exists m', m = s2l "10" ++ m').
    { destruct Hr as [<-|[<-|[]]]; eapply lits_match_prefix; exact Hmt. }
    destruct Hp as [m' ->].
    destruct (trim_end_slashes_keep ["1"%char] "0"%char m' eq_refl) as [t Ht].
    exists t. exact Ht.
  - destruct Hr as [<-|[<-|[]]].
    + unfold ARXIV_RE_modern in Hmt. apply rep_first_match in Hmt as [c [m' [-> Hc]]].
      destruct (trim_end_slashes_keep [] c m' (class_not_slash is_digit c eq_refl Hc))
        as [t Ht].
      exists c, t. split; [exact Ht | rewrite Hc; reflexivity].
    + unfold ARXIV_RE_legacy, plus in Hmt. apply rep_first_match in Hmt as [c [m' [-> Hc]]].
      destruct (trim_end_slashes_keep [] c m' (class_not_slash is_lower c eq_refl Hc))
        as [t Ht].
      exists c, t. split; [exact Ht | rewrite Hc, orb_true_r; reflexivity].
Qed.

Lemma extract_id_shape_witness :
  extract_id DOI_RE (s2l "doi:10.1000/xyz") = Done (s2l "10.1000/xyz") /\
  (exists t, s2l "10.1000/xyz" = s2l "10" ++ t).
Proof.
  split; [vm_compute; reflexivity|].
  apply (proj1 (extract_id_shape (s2l "doi:10.1000/xyz") (s2l "10.1000/xyz"))).
  vm_compute. reflexivity.
Defined.

(** ** handle_response *)

(** On the DOI path [handle_response] panics only when the body of a
    received response cannot be read as text; on the arXiv path a readable
    body without the not-found marker that does not parse as a feed
    panics. *)
Theorem handle_response_panics net pf res :
  (handle_response net pf res Doi = Panic <-> exists r, res = Some r /\ text r = None) /\
  (forall r t, res = Some r -> text r = Some t -> contains not_found_marker t = false ->
     pf t = None -> handle_response net pf res Arxiv = Panic).
Proof.
  split.
  - unfold handle_response, response_text, bind. destruct res as [r|].
    + destruct (text r) as [t|] eqn:Et.
      * destruct (contains _ t); split; intro H;
          try discriminate; destruct H as [r' [H1 H2]]; congruence.
      * split; [intros _; exists r; auto | reflexivity].
    + split; [discriminate | intros [r' [H _]]; discriminate].
  - intros r t -> Et Ec Ep. unfold handle_response, response_text.
    unfold not_found_marker in Ec. rewrite Et, Ec. cbn [bind]. rewrite Ep. reflexivity.
Qed.

Lemma handle_response_panics_witness :
  handle_response net_ok no_parse (Some (mkResponse 200 (Some (s2l "not xml at all")))) Arxiv
    = Panic.
Proof.
  apply (proj2 (handle_response_panics net_ok no_parse
                  (Some (mkResponse 200 (Some (s2l "not xml at all")))))
           (mkResponse 200 (Some (s2l "not xml at all"))) (s2l "not xml at all"));
    vm_compute; reflexivity.
Defined.

(** ** print_arxiv: the assertions of the synthesis path *)

Lemma blank_split a : forallb is_ws a = true -> split_whitespace a = [].
Proof.
  unfold split_whitespace. induction a as [|c a IH]; [reflexivity|].
  cbn [forallb]. intro H. apply andb_true_iff in H as [H1 H2].
  cbn [split_ws_aux]. rewrite H1. apply IH, H2.
Qed.

Lemma author_loop_blank n a : forall l i fa acc,
  In a l -> split_whitespace a = [] -> author_loop n i l fa acc = Panic.
Proof.
  induction l as [|b l IH]; intros i fa acc Hin Hs; [contradiction|].
  cbn [author_loop]. destruct Hin as [->|Hin].
  - rewrite Hs. reflexivity.
  - destruct (split_whitespace b); [reflexivity|]. apply IH; assumption.
Qed.

(** When the first entry passes validation and declares no DOI, an author
    whose name is empty or only whitespace makes [print_arxiv] panic (the
    [assert!] of line 78), wherever that author is in the list. *)
Theorem print_arxiv_blank_author_panics net f e rest ax a :
  entries f = e :: rest -> published e <> None -> entry_id e <> [] ->
  lookup (s2l "arxiv") (extensions e) = Some ax -> lookup (s2l "doi") ax = None ->
  In a (authors e) -> forallb is_ws a = true ->
  print_arxiv net f = Panic.
Proof.
  intros Hf Hp Hi Hx Hd Ha Hw. unfold print_arxiv. rewrite Hf.
  assert (Hn : authors e <> []) by (intro E; rewrite E in Ha; contradiction).
  rewrite validation_guard_false by assumption.
  rewrite Hx, Hd. rewrite (author_loop_blank _ a) by (auto using blank_split).
  reflexivity.
Qed.

Lemma print_arxiv_blank_author_panics_witness :
  print_arxiv net_ok (mkFeed [entry_blank_author]) = Panic.
Proof.
  apply (print_arxiv_blank_author_panics net_ok (mkFeed [entry_blank_author])
           entry_blank_author [] [(s2l "comment", [mkExtension (Some (s2l "12 pages"))])]
           (s2l "  ")); try reflexivity; try discriminate.
  simpl. auto.
Defined.

(** When the first entry passes validation, a missing [arxiv] extension
    namespace, or a [doi] key with no element or whose first element has no
    value, makes [print_arxiv] panic. *)
Theorem print_arxiv_extension_panics net f e rest :
  entries f = e :: rest -> authors e <> [] -> published e <> None -> entry_id e <> [] ->
  (lookup (s2l "arxiv") (extensions e) = None \/
   exists ax, lookup (s2l "arxiv") (extensions e) = Some ax /\
     (lookup (s2l "doi") ax = Some [] \/
      exists d ds, lookup (s2l "doi") ax = Some (d :: ds) /\ ext_value d = None)) ->
  print_arxiv net f = Panic.
Proof.
  intros Hf Ha Hp Hi H. unfold print_arxiv. rewrite Hf.
  rewrite validation_guard_false by assumption.
  destruct H as [Hx|[ax [Hx [Hd|[d [ds [Hd Hv]]]]]]]; rewrite Hx; [reflexivity| |].
  - rewrite Hd. reflexivity.
  - rewrite Hd. cbn [nth_error]. rewrite Hv. reflexivity.
Qed.

Lemma print_arxiv_extension_panics_witness :
  print_arxiv net_ok (mkFeed [entry_no_arxiv]) = Panic.
Proof.
  apply (print_arxiv_extension_panics net_ok (mkFeed [entry_no_arxiv]) entry_no_arxiv []);
    try reflexivity; try discriminate.
  left. reflexivity.
Defined.

(** ** C8: re-running classification and extraction *)

(** C8 (counterexample): trimming the trailing slashes of the match of
    ["10.1234//"] leaves ["10.1234"], which classification then rejects. *)
Lemma classify_trimmed_id_rejected :
  classify doi_double_slash = Done (s2l "10.1234", Doi) /\
  classify (s2l "10.1234") = Exit InvalidValue please_msg.
Proof. split; vm_compute; reflexivity. Qed.

Lemma existsb_captures0 S pat id :
  In id (matched_texts S pat) -> existsb (fun re => is_match re id) S = true.
Proof.
  intro Hin. apply in_matched_texts in Hin as [r [Hr E]].
  apply existsb_exists. exists r. split; [exact Hr|].
  apply (captures0_is_match r id id). apply (captures0_self r pat id E).
Qed.

Lemma existsb_infix_false S x s :
  is_infix x s -> existsb (fun re => is_match re s) S = false ->
  existsb (fun re => is_match re x) S = false.
Proof.
  intros Hi H. destruct (existsb (fun re => is_match re x) S) eqn:E; [|reflexivity].
  apply existsb_exists in E as [r [Hr Er]].
  assert (existsb (fun re => is_match re s) S = true)
    by (apply existsb_exists; exists r; split; [exact Hr | apply (is_match_infix r x s Hi Er)]).
  congruence.
Qed.

(** A repeated class consumes a run of characters of the class, between
    its bounds, and hands the rest to its continuation. *)
Lemma rep_split p g k : forall s lo hi z,
  rep p lo hi g s k = Some z ->
  exists D y, s = D ++ y /\ forallb p D = true /\ lo <= List.length D /\
    (forall n, hi = Some n -> List.length D <= n) /\ k y = Some z.
Proof.
  intros s. induction s as [|c s IH]; intros lo hi z H;
    rewrite rep_unfold in H; cbv zeta in H;
    revert H; apply choice_some; try solve [destruct (hi_allows hi); discriminate];
    try solve [destruct lo; [intro H; exists []; eexists; split; [reflexivity|];
                             split; [reflexivity|]; split; [cbn; lia|];
                             split; [intros; cbn; lia | exact H]
                            | discriminate]].
  destruct (hi_allows hi) eqn:Hh; [|discriminate].
  destruct (p c) eqn:Pc; [|discriminate]. intro H.
  destruct (IH _ _ _ H) as [D [y [-> [HD [Hlo [Hhi Hk]]]]]].
  exists (c :: D), y. split; [reflexivity|].
  split; [cbn; rewrite Pc, HD; reflexivity|].
  split; [cbn [List.length]; lia|]. split; [|exact Hk].
  intros n ->. specialize (Hhi (pred n) eq_refl).
  destruct n; [discriminate|]. cbn in *. lia.
Qed.

Lemma rep_greedy_cons p lo hi s k z c :
  hi_allows hi = true -> p c = true ->
  rep p (pred lo) (hi_pred hi) true s k = Some z ->
  rep p lo hi true (c :: s) k = Some z.
Proof. intros Hh Pc H. cbn [rep]. rewrite Hh, Pc, H. reflexivity. Qed.

Lemma rep_stop p hi g s k :
  (forall c s', s = c :: s' -> p c = false) -> rep p 0 hi g s k = k s.
Proof.
  intro H. rewrite rep_unfold. cbv zeta. destruct s as [|c s'].
  - destruct (hi_allows hi), g; cbn; destruct (k []); reflexivity.
  - rewrite (H c s' eq_refl).
    destruct (hi_allows hi), g; cbn; destruct (k (c :: s')); reflexivity.
Qed.

(** The greedy repetition takes a whole run of its class. *)
Lemma rep_greedy_none p s k z : forall D lo,
  forallb p D = true -> lo <= List.length D ->
  rep p 0 None true s k = Some z -> rep p lo None true (D ++ s) k = Some z.
Proof.
  induction D as [|c D IH]; intros lo HD Hlo H.
  - cbn in Hlo. replace lo with 0 by lia. exact H.
  - cbn in HD. apply andb_prop in HD as [Pc HD]. cbn [app].
    apply rep_greedy_cons; [reflexivity | exact Pc |].
    apply IH; [exact HD | cbn in Hlo; lia | exact H].
Qed.

Lemma rep_greedy_some p s k z : forall D lo n,
  forallb p D = true -> lo <= List.length D -> List.length D <= n ->
  rep p 0 (Some (n - List.length D)) true s k = Some z ->
  rep p lo (Some n) true (D ++ s) k = Some z.
Proof.
  induction D as [|c D IH]; intros lo n HD Hlo Hn H.
  - cbn in Hlo. replace lo with 0 by lia. rewrite Nat.sub_0_r in H. exact H.
  - cbn in HD. apply andb_prop in HD as [Pc HD]. cbn [app]. cbn [List.length] in Hlo, Hn.
    apply rep_greedy_cons; [destruct n; [lia | reflexivity] | exact Pc |].
    apply (IH (pred lo) (pred n)); [exact HD | lia | lia |].
    replace (pred n - List.length D) with (n - S (List.length D)) by lia. exact H.
Qed.

Lemma mt_lits_app w : forall x k, mt (lits w) (w ++ x) k = k x.
Proof.
  induction w as [|c w IH]; intros x k; cbn [lits mt app]; [reflexivity|].
  unfold lit. cbn [mt]. rewrite (proj2 (ascii_eqb_true c c) eq_refl). apply IH.
Qed.

Ltac app_norm :=
  repeat (rewrite <- app_assoc || rewrite <- app_comm_cons).

(** The shape of a match of [10.\d{4,9}/[-\._;()/:\w\d]+]. *)
Lemma doi_general_split m a :
  mt DOI_RE_general (m ++ a) kdone = Some a ->
  exists c D T, m = s2l "10" ++ c :: D ++ "/"%char :: T /\ not_newline c = true /\
    forallb is_digit D = true /\ 4 <= List.length D <= 9 /\
    T <> [] /\ forallb doi_suffix_char T = true.
Proof.
  intro H. unfold DOI_RE_general in H. cbn [mt] in H.
  apply mt_lits in H as [x [Hx H]]. cbv beta in H.
  unfold any in H. cbn [mt] in H.
  destruct x as [|c x]; [discriminate|]. cbv beta iota in H.
  destruct (not_newline c) eqn:Hc; [|discriminate].
  apply rep_split in H as [D [y [-> [HD [Hlo [Hhi H]]]]]].
  specialize (Hhi 9 eq_refl). cbv beta in H. unfold lit in H. cbn [mt] in H.
  destruct y as [|c' y]; [discriminate|]. cbv beta iota in H.
  destruct (ascii_eqb "/" c') eqn:E; [|discriminate].
  apply ascii_eqb_true in E. subst c'.
  unfold plus in H. cbn [mt] in H.
  apply rep_split in H as [T [y' [-> [HT [HTlo [_ H]]]]]].
  unfold kdone in H. injection H as ->.
  exists c, D, T. split; [|split; [exact Hc|split; [exact HD|split; [lia|split; [|exact HT]]]]].
  - apply (app_inv_tail a). rewrite Hx. app_norm. reflexivity.
  - intros ->. cbn in HTlo. lia.
Qed.

(** The shape of a match of [10.1002/[^\s]+]. *)
Lemma doi_wiley_split m a :
  mt DOI_RE_wiley (m ++ a) kdone = Some a ->
  exists c T, m = s2l "10" ++ c :: s2l "1002/" ++ T /\ not_newline c = true /\
    T <> [] /\ forallb (fun c => negb (is_ws c)) T = true.
Proof.
  intro H. unfold DOI_RE_wiley in H. cbn [mt] in H.
  apply mt_lits in H as [x [Hx H]]. cbv beta in H.
  unfold any in H. cbn [mt] in H.
  destruct x as [|c x]; [discriminate|]. cbv beta iota in H.
  destruct (not_newline c) eqn:Hc; [|discriminate].
  apply mt_lits in H as [x' [-> H]]. cbv beta in H.
  unfold plus in H. cbn [mt] in H.
  apply rep_split in H as [T [y' [-> [HT [HTlo [_ H]]]]]].
  unfold kdone in H. injection H as ->.
  exists c, T. split; [|split; [exact Hc|split; [|exact HT]]].
  - apply (app_inv_tail a). rewrite Hx. app_norm. reflexivity.
  - intros ->. cbn in HTlo. lia.
Qed.

(** Every DOI match has a [/] after at least three characters. *)
Lemma doi_match_slash r m a :
  In r DOI_RE -> mt r (m ++ a) kdone = Some a ->
  exists P Q, m = P ++ "/"%char :: Q /\ 3 <= List.length P.
Proof.
  intros [<-|[<-|[]]] H.
  - apply doi_general_split in H as [c [D [T [-> _]]]].
    exists (s2l "10" ++ c :: D), T. split; [app_norm; reflexivity | cbn; lia].
  - apply doi_wiley_split in H as [c [T [-> _]]].
    exists (s2l "10" ++ c :: s2l "1002"), T. split; [reflexivity | cbn; lia].
Qed.

(** A DOI pattern never matches [10], a character and digits. *)
Lemma doi_no_match_digits r c D :
  In r DOI_RE -> forallb is_digit D = true ->
  is_match r ("1"%char :: "0"%char :: c :: D) = false.
Proof.
  intros Hr HD. unfold is_match.
  destruct (find r _) as [[[b m] a]|] eqn:F; [|reflexivity].
  exfalso. apply find_spec in F as [E Hm].
  destruct (doi_match_slash r m a Hr Hm) as [P [Q [-> HP]]].
  assert (E' : "1"%char :: "0"%char :: c :: D = (b ++ P) ++ "/"%char :: (Q ++ a))
    by (rewrite E; app_norm; reflexivity).
  assert (HX : 3 <= List.length (b ++ P)) by (rewrite length_app; lia).
  remember (b ++ P) as X eqn:EX. clear EX E.
  destruct X as [|x1 [|x2 [|x3 X']]]; cbn in HX; try lia.
  injection E' as _ _ _ ->. rewrite forallb_app in HD.
  apply andb_prop in HD as [_ HD]. discriminate HD.
Qed.

Lemma drop_slashes_app x y : drop_slashes x <> [] -> drop_slashes (x ++ y) = drop_slashes x ++ y.
Proof.
  induction x as [|c x IH]; intro H; cbn [app drop_slashes] in *; [contradiction|].
  destruct (ascii_eqb c "/"%char); [apply IH; exact H | reflexivity].
Qed.

Lemma drop_slashes_app_nil x y : drop_slashes x = [] -> drop_slashes (x ++ y) = drop_slashes y.
Proof.
  induction x as [|c x IH]; intro H; cbn [app drop_slashes] in *; [reflexivity|].
  destruct (ascii_eqb c "/"%char); [apply IH; exact H | discriminate].
Qed.

Lemma trim_end_slashes_app X T :
  trim_end_slashes T <> [] -> trim_end_slashes (X ++ T) = X ++ trim_end_slashes T.
Proof.
  unfold trim_end_slashes. intro H. rewrite rev_app_distr, drop_slashes_app.
  - rewrite rev_app_distr, rev_involutive. reflexivity.
  - intro E. apply H. rewrite E. reflexivity.
Qed.

Lemma trim_end_slashes_app_nil X T :
  trim_end_slashes T = [] -> trim_end_slashes (X ++ T) = trim_end_slashes X.
Proof.
  unfold trim_end_slashes. intro H. rewrite rev_app_distr, drop_slashes_app_nil;
    [reflexivity|].
  apply (f_equal (@rev ascii)) in H. rewrite rev_involutive in H. exact H.
Qed.

Lemma trim_end_slashes_last X d :
  ascii_eqb d "/"%char = false -> trim_end_slashes (X ++ [d]) = X ++ [d].
Proof.
  intro H. unfold trim_end_slashes. rewrite rev_app_distr. cbn [rev app drop_slashes].
  rewrite H. cbn [rev]. rewrite rev_involutive. reflexivity.
Qed.

Lemma trim_end_slashes_idem m : trim_end_slashes (trim_end_slashes m) = trim_end_slashes m.
Proof.
  destruct (trim_end_slashes_spec m) as [_ H].
  destruct (trim_end_slashes m) as [|c t] eqn:E; [reflexivity|].
  destruct (exists_last (l := c :: t) ltac:(discriminate)) as [x [d Ed]].
  rewrite Ed. apply trim_end_slashes_last.
  destruct (ascii_eqb d "/"%char) eqn:Hd; [|reflexivity].
  apply ascii_eqb_true in Hd. subst d. exfalso. exact (H x Ed).
Qed.

Lemma forallb_prefix {A} (p : A -> bool) x w : forallb p (x ++ w) = true -> forallb p x = true.
Proof. rewrite forallb_app. intro H. apply andb_prop in H as [H _]. exact H. Qed.

(** If a DOI pattern still matches the trimmed text of a DOI match, the
    pattern that produced the match matches all of the trimmed text. *)
Lemma doi_trim_full r m a :
  In r DOI_RE -> mt r (m ++ a) kdone = Some a ->
  existsb (fun re => is_match re (trim_end_slashes m)) DOI_RE = true ->
  mt r (trim_end_slashes m) kdone = Some [].
Proof.
  intros Hr H Hex. destruct Hr as [<-|[<-|[]]].
  - destruct (doi_general_split m a H) as [c [D [T [Em [Hc [HD [HDl [HT HTc]]]]]]]].
    assert (Em' : m = (s2l "10" ++ c :: D ++ ["/"%char]) ++ T)
      by (rewrite Em; app_norm; reflexivity).
    destruct (proj1 (trim_end_slashes_spec T)) as [w Ew].
    destruct (trim_end_slashes T) as [|t T'] eqn:Et.
    + exfalso.
      assert (Ei : trim_end_slashes m = "1"%char :: "0"%char :: c :: D).
      { rewrite Em', trim_end_slashes_app_nil by exact Et.
        rewrite app_comm_cons, app_assoc, trim_end_slashes_app_nil by reflexivity.
        assert (HnD : D <> []) by (intros ->; cbn in HDl; lia).
        destruct (exists_last HnD) as [D0 [d ->]].
        rewrite app_comm_cons, app_assoc, trim_end_slashes_last.
        - app_norm. reflexivity.
        - apply (class_not_slash is_digit); [reflexivity|].
          rewrite forallb_app in HD. apply andb_prop in HD as [_ HD]. cbn in HD.
          destruct (is_digit d); [reflexivity | discriminate]. }
      rewrite Ei in Hex. cbn [existsb DOI_RE] in Hex.
      rewrite (doi_no_match_digits DOI_RE_general c D (or_introl eq_refl) HD),
        (doi_no_match_digits DOI_RE_wiley c D (or_intror (or_introl eq_refl)) HD) in Hex.
      discriminate.
    + assert (Ei : trim_end_slashes m = s2l "10" ++ c :: D ++ "/"%char :: t :: T').
      { rewrite Em', trim_end_slashes_app by (rewrite Et; discriminate).
        rewrite Et. app_norm. reflexivity. }
      assert (Ht : forallb doi_suffix_char (t :: T') = true)
        by (apply (forallb_prefix _ _ w); rewrite <- Ew; exact HTc).
      rewrite Ei. unfold DOI_RE_general. cbn [mt]. rewrite mt_lits_app. cbv beta.
      unfold any. cbn [mt]. rewrite Hc.
      apply (rep_greedy_some _ _ _ _ D 4 9 HD); [lia | lia |].
      rewrite rep_stop by (intros ? ? E; injection E as <- _; reflexivity).
      unfold lit, plus. cbn [mt]. rewrite (proj2 (ascii_eqb_true "/" "/") eq_refl).
      rewrite <- (app_nil_r (t :: T')).
      apply (rep_greedy_none _ _ _ _ (t :: T') 1 Ht); [cbn; lia | reflexivity].
  - destruct (doi_wiley_split m a H) as [c [T [Em [Hc [HT HTc]]]]].
    assert (Em' : m = (s2l "10" ++ c :: s2l "1002/") ++ T)
      by (rewrite Em; app_norm; reflexivity).
    destruct (proj1 (trim_end_slashes_spec T)) as [w Ew].
    destruct (trim_end_slashes T) as [|t T'] eqn:Et.
    + exfalso.
      assert (Ei : trim_end_slashes m = "1"%char :: "0"%char :: c :: s2l "1002")
        by (rewrite Em', trim_end_slashes_app_nil by exact Et; reflexivity).
      rewrite Ei in Hex. cbn [existsb DOI_RE] in Hex.
      rewrite (doi_no_match_digits DOI_RE_general c (s2l "1002") (or_introl eq_refl) eq_refl),
        (doi_no_match_digits DOI_RE_wiley c (s2l "1002") (or_intror (or_introl eq_refl)) eq_refl)
        in Hex.
      discriminate.
    + assert (Ei : trim_end_slashes m = s2l "10" ++ c :: s2l "1002/" ++ t :: T').
      { rewrite Em', trim_end_slashes_app by (rewrite Et; discriminate).
        rewrite Et. app_norm. reflexivity. }
      assert (Ht : forallb (fun c => negb (is_ws c)) (t :: T') = true)
        by (apply (forallb_prefix _ _ w); rewrite <- Ew; exact HTc).
      rewrite Ei. unfold DOI_RE_wiley. cbn [mt]. rewrite mt_lits_app. cbv beta.
      unfold any. cbn [mt]. rewrite Hc. rewrite mt_lits_app. cbv beta.
      unfold plus. cbn [mt].
      rewrite <- (app_nil_r (t :: T')).
      apply (rep_greedy_none _ _ _ _ (t :: T') 1 Ht); [cbn; lia | reflexivity].
Qed.

Lemma captures0_mt r s m : captures0 r s = Some m -> exists a, mt r (m ++ a) kdone = Some a.
Proof.
  unfold captures0. destruct (find r s) as [[[b m'] a]|] eqn:F; [|discriminate].
  intro H. injection H as <-. apply find_spec in F as [_ Hm]. eauto.
Qed.

Lemma captures0_trim_infix r pat m :
  captures0 r pat = Some m -> is_infix (trim_end_slashes m) pat.
Proof.
  intro E. destruct (captures0_infix r pat m E) as [u [v ->]].
  destruct (proj1 (trim_end_slashes_spec m)) as [w Ew].
  remember (trim_end_slashes m) as t eqn:Et. clear Et.
  exists u, (w ++ v). rewrite Ew. app_norm. reflexivity.
Qed.

Lemma captures0_full r s : mt r s kdone = Some [] -> captures0 r s = Some s.
Proof. intro H. unfold captures0. rewrite (find_start r s H). reflexivity. Qed.

(** Extracting a DOI again from an extracted DOI that a DOI pattern still
    matches gives it back. *)
Lemma extract_doi_rerun pat id :
  extract_id DOI_RE pat = Done id ->
  existsb (fun re => is_match re id) DOI_RE = true ->
  extract_id DOI_RE id = Done id.
Proof.
  intros H Hex. apply extract_id_done in H as [m [Hm ->]].
  unfold matched_texts, DOI_RE in Hm. cbn [flat_map app] in Hm.
  destruct (captures0 DOI_RE_general pat) as [m1|] eqn:E1,
    (captures0 DOI_RE_wiley pat) as [m2|] eqn:E2;
    cbn [app] in Hm; try discriminate; injection Hm as <-.
  - destruct (captures0_mt _ _ _ E1) as [a Ha].
    pose proof (doi_trim_full _ _ _ (or_introl eq_refl) Ha Hex) as Hf.
    unfold extract_id, collect_arrayvec1, matched_texts, DOI_RE. cbn [flat_map app].
    rewrite (captures0_full _ _ Hf).
    rewrite (captures0_none_infix _ _ pat (captures0_trim_infix _ _ _ E1) E2).
    cbn -[trim_end_slashes]. rewrite trim_end_slashes_idem. reflexivity.
  - destruct (captures0_mt _ _ _ E2) as [a Ha].
    pose proof (doi_trim_full _ _ _ (or_intror (or_introl eq_refl)) Ha Hex) as Hf.
    unfold extract_id, collect_arrayvec1, matched_texts, DOI_RE. cbn [flat_map app].
    rewrite (captures0_full _ _ Hf).
    rewrite (captures0_none_infix _ _ pat (captures0_trim_infix _ _ _ E2) E1).
    cbn -[trim_end_slashes]. rewrite trim_end_slashes_idem. reflexivity.
Qed.

(** An arXiv match ends in a digit. *)
Lemma version_tail_last lo hi y a :
  mt (RSeq (RRep is_digit (S lo) hi true) version_suffix) y kdone = Some a ->
  exists x c, y = x ++ c :: a /\ is_digit c = true.
Proof.
  intro H. cbn [mt] in H. apply rep_split in H as [D [y' [-> [HD [Hlo [_ H]]]]]].
  cbv beta in H. unfold version_suffix, opt, lit, plus in H. cbn [mt] in H.
  apply orelse_some in H as [H|[_ H]].
  - destruct y' as [|v y']; [discriminate|]. cbv beta iota in H.
    destruct (ascii_eqb "v" v) eqn:Ev; [|discriminate].
    apply ascii_eqb_true in Ev. subst v.
    apply rep_split in H as [D' [y'' [-> [HD' [Hlo' [_ H]]]]]].
    unfold kdone in H. injection H as ->.
    assert (HnD : D' <> []) by (intros ->; cbn in Hlo'; lia).
    destruct (exists_last HnD) as [x' [c ->]].
    exists (D ++ "v"%char :: x'), c. split; [app_norm; reflexivity|].
    rewrite forallb_app in HD'. apply andb_prop in HD' as [_ HD']. cbn in HD'.
    rewrite andb_true_r in HD'. exact HD'.
  - unfold kdone in H. injection H as ->.
    assert (HnD : D <> []) by (intros ->; cbn in Hlo; lia).
    destruct (exists_last HnD) as [x [c ->]].
    exists x, c. split; [app_norm; reflexivity|].
    rewrite forallb_app in HD. apply andb_prop in HD as [_ HD]. cbn in HD.
    rewrite andb_true_r in HD. exact HD.
Qed.

Lemma arxiv_match_last r m a :
  In r ARXIV_RE -> mt r (m ++ a) kdone = Some a ->
  exists x c, m = x ++ [c] /\ is_digit c = true.
Proof.
  intros Hr H.
  assert (T : exists y lo hi, is_suffix y (m ++ a) /\
            mt (RSeq (RRep is_digit (S lo) hi true) version_suffix) y kdone = Some a).
  { destruct Hr as [<-|[<-|[]]].
    - unfold ARXIV_RE_modern in H.
      apply mt_seq_cont in H as [y1 [S1 H]]. apply mt_seq_cont in H as [y2 [S2 H]].
      exists y2, 3, (Some 5). split; [eapply is_suffix_trans; eauto | exact H].
    - unfold ARXIV_RE_legacy in H.
      apply mt_seq_cont in H as [y1 [S1 H]]. apply mt_seq_cont in H as [y2 [S2 H]].
      apply mt_seq_cont in H as [y3 [S3 H]].
      exists y3, 6, (Some 7). split; [|exact H].
      eapply is_suffix_trans; [exact S3|]. eapply is_suffix_trans; [exact S2 | exact S1]. }
  destruct T as [y [lo [hi [[w Hw] Hy]]]].
  apply version_tail_last in Hy as [x [c [-> Hc]]].
  exists (w ++ x), c. split; [|exact Hc].
  apply (app_inv_tail a). rewrite Hw. app_norm. reflexivity.
Qed.

(** Nothing is trimmed from an arXiv match. *)
Lemma arxiv_extract_no_trim pat id :
  extract_id ARXIV_RE pat = Done id -> In id (matched_texts ARXIV_RE pat).
Proof.
  intro H. apply extract_id_done in H as [m [Hm ->]].
  assert (Hin : In m (matched_texts ARXIV_RE pat)) by (rewrite Hm; left; reflexivity).
  pose proof Hin as Hin'. apply in_matched_texts in Hin' as [r [Hr E]].
  destruct (captures0_mt _ _ _ E) as [a Ha].
  destruct (arxiv_match_last r m a Hr Ha) as [x [c [-> Hc]]].
  rewrite trim_end_slashes_last; [exact Hin|].
  apply (class_not_slash is_digit); [reflexivity | exact Hc].
Qed.

(** C8 (amended): an arXiv id that classification returns is classified
    again as the same arXiv id (an arXiv match never ends in [/], so
    nothing is trimmed from it). A DOI that classification returns is
    classified again as the same DOI whenever a DOI pattern still matches
    it; a DOI whose trimming removed the whole suffix, like ["10.1234"]
    from ["10.1234//"], is not. *)
Theorem classify_rerun :
  (forall pat id, classify pat = Done (id, Arxiv) -> classify id = Done (id, Arxiv)) /\
  (forall pat id, classify pat = Done (id, Doi) ->
     existsb (fun re => is_match re id) DOI_RE = true ->
     classify id = Done (id, Doi)).
Proof.
  split.
  - intros pat id H. unfold classify in H.
    destruct (is_match DOI_IDENT_RE pat || existsb (fun re => is_match re pat) DOI_RE) eqn:Ed.
    + destruct (extract_id DOI_RE pat); simpl in H; discriminate.
    + destruct (is_match ARXIV_IDENT_RE pat || existsb (fun re => is_match re pat) ARXIV_RE)
        eqn:Ea; [|discriminate].
      destruct (extract_id ARXIV_RE pat) as [a| |] eqn:Ex; simpl in H; try discriminate.
      injection H as <-.
      pose proof (arxiv_extract_no_trim _ _ Ex) as Hin.
      assert (Hinf : is_infix a pat).
      { apply in_matched_texts in Hin as [r [_ E]]. eapply captures0_infix; eauto. }
      apply orb_false_iff in Ed as [Ed1 Ed2].
      unfold classify.
      replace (is_match DOI_IDENT_RE a) with false.
      2:{ destruct (is_match DOI_IDENT_RE a) eqn:E; [|reflexivity].
          rewrite (is_match_infix _ _ _ Hinf E) in Ed1. discriminate. }
      rewrite (existsb_infix_false _ _ _ Hinf Ed2), (existsb_captures0 _ _ _ Hin), orb_true_r.
      cbn [orb].
      rewrite (extract_id_rerun _ _ _ Ex Hin). reflexivity.
  - intros pat id H Hex. unfold classify in H.
    destruct (is_match DOI_IDENT_RE pat || existsb (fun re => is_match re pat) DOI_RE) eqn:Ed.
    + destruct (extract_id DOI_RE pat) as [a| |] eqn:Ex; simpl in H; try discriminate.
      injection H as <-. unfold classify. rewrite Hex, orb_true_r.
      rewrite (extract_doi_rerun _ _ Ex Hex). reflexivity.
    + destruct (is_match ARXIV_IDENT_RE pat || existsb (fun re => is_match re pat) ARXIV_RE);
        [|discriminate].
      destruct (extract_id ARXIV_RE pat); simpl in H; discriminate.
Qed.

Lemma classify_rerun_witness :
  classify (s2l "arxiv:2105.11572") = Done (s2l "2105.11572", Arxiv) /\
  classify (s2l "2105.11572") = Done (s2l "2105.11572", Arxiv) /\
  classify doi_trailing_slash = Done (s2l "10.1000/xyz", Doi) /\
  existsb (fun re => is_match re (s2l "10.1000/xyz")) DOI_RE = true /\
  classify (s2l "10.1000/xyz") = Done (s2l "10.1000/xyz", Doi).
Proof.
  split; [vm_compute; reflexivity|]. split.
  { apply (proj1 classify_rerun (s2l "arxiv:2105.11572")). vm_compute. reflexivity. }
  split; [vm_compute; reflexivity|]. split; [vm_compute; reflexivity|].
  apply (proj2 classify_rerun doi_trailing_slash); vm_compute; reflexivity.
Defined.
